(** * connpool: a capped, per-destination connection pool

    Shallow embedding of [connpool/connpool.go] and the properties of its
    token accounting, close-time handoff and bounded-wait dial loop.

    Conventions of the embedding:
    - Go's [int] is a 64-bit two's complement integer: a [Z] kept in range by
      [wrap], which is written at every [++] and [--] of the source.
    - A method on [*pool] is a function on the [pool] value behind the
      pointer, returning the value left behind; [*pool] pointers themselves
      are indices into the store of allocated pools ([heap]).
    - The transport (the underlying dial function, the raw connections and
      their [Close]) is a collaborator: its answers are functions of the
      history of calls made to it, and every call is logged in the state so
      that "the dial function was invoked" and "the raw connection was
      physically closed" are observable.
    - Channel and timer events that a [select] statement waits for are
      supplied by the environment. *)

From Stdlib Require Import ZArith Lia.
From stdpp Require Import base gmap strings list.

Local Open Scope Z_scope.

(* ===================================================================== *)
(** ** Go's [int] *)

Definition int_bits : Z := 64.
Definition min_int : Z := - 2 ^ (int_bits - 1).
Definition max_int : Z := 2 ^ (int_bits - 1) - 1.

(** Two's complement wrap-around of a mathematical integer into [int]. *)
Definition wrap (z : Z) : Z :=
  (z + 2 ^ (int_bits - 1)) `mod` 2 ^ int_bits - 2 ^ (int_bits - 1).

Definition is_int (z : Z) : Prop := min_int <= z <= max_int.

(* ===================================================================== *)
(** ** Constants and errors *)

Definition DefaultMaxConnsPerHost : Z := 10.

(** [type ErrTimeout struct{}] and its three methods. *)
Inductive ErrTimeout : Type := ErrTimeout_lit.

Definition Error (err : ErrTimeout) : string := "dial timeout error".
Definition Temporary (err : ErrTimeout) : bool := true.
Definition Timeout (err : ErrTimeout) : bool := true.

(** A non-nil value of Go's [error] interface: either the pool's own
    [ErrTimeout], or an error produced by the transport. *)
Inductive error_value : Type :=
  | timeout_error (e : ErrTimeout)
  | transport_error (msg : string).

(** Go's [error]: [None] is [nil]. *)
Abbreviation error := (option error_value).

(* ===================================================================== *)
(** ** Data model *)

(** [type netAndAddr struct { net, addr string }] *)
Abbreviation netAndAddr := (string * string)%type.

(** A raw connection handed out by the transport. [raw_Close] is the answer
    of its [Close] method, given the handles closed so far. *)
Record rawConn : Type := mkRaw {
  fd : nat;
  raw_Close : list nat → error;
}.

(** [type DialFunc func(network, addr string) (net.Conn, error)]; the extra
    first argument is the history of the calls served so far. Both
    components of the result are kept, as in Go: a [nil] connection is
    [None], a [nil] error is [None]. *)
Definition DialFunc : Type :=
  list netAndAddr → string → string → option rawConn * error.

(** [type pool struct { sync.Mutex; connCh chan *conn; tokens int }].
    The mutex only makes [getToken] and [putToken] atomic; the channel is
    created with the pool and never replaced, so it is identified with the
    pool. *)
Record pool : Type := mkPool { tokens : Z }.

(** A [*pool]. *)
Abbreviation ptr := nat.

(** [type conn struct { net.Conn; pool *pool }] *)
Record conn : Type := mkConn {
  Conn : option rawConn;
  conn_pool : ptr;
}.

(** A value of the interface [net.Conn] as returned by this package. *)
Inductive net_Conn : Type :=
  | nil_Conn
  | raw_Conn (r : rawConn)
  | pool_Conn (c : conn).

Definition of_raw (c : option rawConn) : net_Conn :=
  match c with
  | None => nil_Conn
  | Some r => raw_Conn r
  end.

(** The transport's log. *)
Record transport : Type := mkTransport {
  dialed : list netAndAddr;
  closed : list nat;
}.

(* ===================================================================== *)
(** ** Token bucket: [getToken] and [putToken] *)

(** [[
    t := p.tokens
    if t > 0 { p.tokens-- }
    return t
    ]] *)
Definition getToken (p : pool) : Z * pool :=
  let t := tokens p in
  (t, if 0 <? t then mkPool (wrap (tokens p - 1)) else p).

(** [[
    t := p.tokens
    p.tokens++
    return t
    ]] *)
Definition putToken (p : pool) : Z * pool :=
  let t := tokens p in
  (t, mkPool (wrap (tokens p + 1))).

(* ===================================================================== *)
(** ** [maybeDial] *)

(** The transport's log after one more call of the dial function. *)
Definition logged (network addr : string) (tr : transport) : transport :=
  mkTransport (dialed tr ++ [(network, addr)]) (closed tr).

(** [self] is the address of the receiver, stored in the wrapped
    connection as its back-reference. The result is the returned pair, the
    pool left behind and the transport log. *)
Definition maybeDial (self : ptr) (network addr : string) (d : DialFunc)
    (p : pool) (tr : transport) : (net_Conn * error) * pool * transport :=
  let '(t, p1) := getToken p in
  if negb (t =? 0) then
    let '(c, err) := d (dialed tr) network addr in
    let tr1 := logged network addr tr in
    match err with
    | Some e =>
        let '(_, p2) := putToken p1 in
        ((of_raw c, Some e), p2, tr1)
    | None =>
        let pc := mkConn c self in
        ((pool_Conn pc, None), p1, tr1)
    end
  else
    ((nil_Conn, None), p1, tr).

(* ===================================================================== *)
(** ** The [Dialer] and its registry *)

(** The [Dialer] object together with the store it points into:
    [conns] is the map field ([None] is the [nil] map), [MaxConnPerHost] the
    configuration field, [heap] the allocated pools ([heap !! p] is [*p]),
    [trans] the transport's log. The field [Dialer net.Dialer] is immutable
    configuration: its [Dial] method is passed to the functions below as a
    [DialFunc], and its [Timeout] decides when the environment delivers the
    [deadline] event. *)
Record State : Type := mkState {
  conns : option (gmap netAndAddr nat);
  MaxConnPerHost : Z;
  heap : list pool;
  trans : transport;
}.

(** [[
    max := d.MaxConnPerHost
    if max == 0 { max = DefaultMaxConnsPerHost }
    ]] *)
Definition max_of (s : State) : Z :=
  if MaxConnPerHost s =? 0 then DefaultMaxConnsPerHost else MaxConnPerHost s.

(** The map [d.conns] as it is read: the [nil] map has no entry. *)
Definition registry (s : State) : gmap netAndAddr nat :=
  match conns s with
  | None => ∅
  | Some m => m
  end.

(** [func (d *Dialer) pool(network, addr string) *pool]. After
    [if d.conns == nil { d.conns = make(...) }] the field holds a map in
    every case. *)
Definition Dialer_pool (network addr : string) (s : State) : ptr * State :=
  let max := max_of s in
  let m := registry s in
  match m !! (network, addr) with
  | Some p => (p, mkState (Some m) (MaxConnPerHost s) (heap s) (trans s))
  | None =>
      let p := length (heap s) in
      (p, mkState (Some (<[(network, addr) := p]> m)) (MaxConnPerHost s)
                  (heap s ++ [mkPool max]) (trans s))
  end.

(** The state after a method of [*pool] left [p'] behind the pointer [self]
    and [tr'] as the transport's log. *)
Definition store (self : ptr) (p' : pool) (tr' : transport) (s : State)
    : State :=
  mkState (conns s) (MaxConnPerHost s) (<[self := p']> (heap s)) tr'.

(** Run a method of [*pool] on the pool stored at [self]. [None]: [self]
    points to no allocated pool (Go's garbage collector excludes this; it is
    kept so that nothing is assumed about the argument). *)
Definition at_pool {A : Type} (self : ptr)
    (f : pool → transport → A * pool * transport) (s : State)
    : option (A * State) :=
  match heap s !! self with
  | None => None
  | Some p =>
      let '(a, p', tr') := f p (trans s) in
      Some (a, store self p' tr' s)
  end.

(* ===================================================================== *)
(** ** [Dial] *)

(** What the [select] of the wait loop fires on. *)
Inductive select_event : Type :=
  | recv (c : conn)   (* case conn := <-pool.connCh *)
  | poll              (* case <-time.After(10 * time.Millisecond) *)
  | deadline.         (* case <-toch *)

Inductive outcome : Type :=
  | returned (c : net_Conn) (err : error)
  | blocked   (* still inside [select]: no further event was supplied *)
  | fault.    (* dereference of a pointer to no pool *)

(** The [for { select { ... } }] loop of [Dial], one iteration per event. *)
Fixpoint wait_loop (self : ptr) (network addr : string) (d : DialFunc)
    (evs : list select_event) (s : State) : State * outcome :=
  match evs with
  | [] => (s, blocked)
  | recv c :: _ => (s, returned (pool_Conn c) None)
  | poll :: evs' =>
      match at_pool self (maybeDial self network addr d) s with
      | None => (s, fault)
      | Some ((c, err), s') =>
          match err, c with
          | Some e, _ => (s', returned nil_Conn (Some e))
          | None, nil_Conn => wait_loop self network addr d evs' s'
          | None, _ => (s', returned c None)
          end
      end
  | deadline :: _ =>
      (s, returned nil_Conn (Some (timeout_error ErrTimeout_lit)))
  end.

(** [func (d *Dialer) Dial(network, addr string) (net.Conn, error)];
    [d] is [d.Dialer.Dial], [evs] the events its [select] statements will
    meet, in order. *)
Definition Dial (d : DialFunc) (network addr : string)
    (evs : list select_event) (s : State) : State * outcome :=
  let '(p, s1) := Dialer_pool network addr s in
  match at_pool p (maybeDial p network addr d) s1 with
  | None => (s1, fault)
  | Some ((c, err), s2) =>
      match err, c with
      | Some e, _ => (s2, returned nil_Conn (Some e))
      | None, nil_Conn => wait_loop p network addr d evs s2
      | None, _ => (s2, returned c None)
      end
  end.

(* ===================================================================== *)
(** ** [Close] *)

Inductive close_outcome : Type :=
  | close_returned (err : error)
  | close_panic   (* method call on a nil [net.Conn] *)
  | close_fault.  (* dereference of a pointer to no pool *)

(** What one call of [Close] did: the state it leaves, the connection it
    sent on [connCh] (if the send case was taken) and how it ended. *)
Record closing : Type := mkClosing {
  after : State;
  sent : option conn;
  ended : close_outcome;
}.

(** [func (c *conn) Close() error]. [receiver_ready] tells whether a
    goroutine is receiving on [c.pool.connCh] when the [select] runs: the
    send on the unbuffered channel can proceed exactly then, otherwise the
    [default] case is taken. *)
Definition Close (c : conn) (receiver_ready : bool) (s : State) : closing :=
  if receiver_ready then
    mkClosing s (Some c) (close_returned None)
  else
    match at_pool (conn_pool c) (λ p tr, (putToken p, tr)) s with
    | None => mkClosing s None close_fault
    | Some (_, s1) =>
        match Conn c with
        | None => mkClosing s1 None close_panic
        | Some r =>
            let err := raw_Close r (closed (trans s1)) in
            let tr := mkTransport (dialed (trans s1))
                                  (closed (trans s1) ++ [fd r]) in
            mkClosing
              (mkState (conns s1) (MaxConnPerHost s1) (heap s1) tr)
              None (close_returned err)
        end
    end.

(* ===================================================================== *)
(** ** Calls issued one after the other *)

(** A call made on the [Dialer] or on one of its connections. *)
Inductive api_call : Type :=
  | call_Dial (network addr : string) (evs : list select_event)
  | call_Close (c : conn) (receiver_ready : bool).

Definition run_call (d : DialFunc) (a : api_call) (s : State) : State :=
  match a with
  | call_Dial network addr evs => fst (Dial d network addr evs s)
  | call_Close c ready => after (Close c ready s)
  end.

(** The state left by a sequence of calls, each returning before the next
    starts. *)
Definition run_calls (d : DialFunc) (calls : list api_call) (s : State)
    : State :=
  foldl (λ s a, run_call d a s) s calls.

(** The state left by a sequence of registry look-ups. *)
Definition pool_calls (keys : list netAndAddr) (s : State) : State :=
  foldl (λ s k, snd (Dialer_pool (fst k) (snd k) s)) s keys.

(** A freshly declared [Dialer{MaxConnPerHost: max}]: no map, no pool. *)
Definition new_Dialer (max : Z) : State :=
  mkState None max [] (mkTransport [] []).

(* ===================================================================== *)
(** ** Concurrent callers of one pool

    Goroutines calling [Dial] and [Close] on one destination interleave in
    steps that the code makes atomic: the critical sections [getToken] and
    [putToken] (both hold the pool's mutex from entry to return), the
    rendezvous on the unbuffered [connCh], and the transport's calls. A
    goroutine is described by the point of its call it has reached. *)

Inductive goroutine : Type :=
  | DialGetToken                 (* in [maybeDial], before [p.getToken()] *)
  | DialRaw                      (* [getToken() != 0]: inside [d(network, addr)] *)
  | DialPutToken (e : error_value)  (* [d] failed, before [p.putToken()] *)
  | DialSelect                   (* in the wait loop, at [select] *)
  | DialDone (c : net_Conn) (err : error)
  | CloseSelect (c : conn)       (* at the [select] of [Close] *)
  | ClosePutToken (c : conn)     (* [default] taken, before [putToken()] *)
  | CloseRaw (c : conn)          (* inside [c.Conn.Close()] *)
  | CloseDone (err : error).

(** [the_pool]: the pool; [running]: the goroutines; [held]: the wrapped
    connections that some caller owns and has not closed. *)
Record system : Type := mkSystem {
  the_pool : pool;
  running : list goroutine;
  held : list conn;
}.

Definition start (p : pool) : system := mkSystem p [] [].

(** [self] is the address of the pool. [Close] is only ever started on a
    held connection, which then stops being held: every connection is closed
    at most once by each of its owners. *)
Inductive step (self : ptr) : system → system → Prop :=
  | step_call_Dial s :
      step self s (mkSystem (the_pool s) (running s ++ [DialGetToken]) (held s))
  | step_getToken s i :
      running s !! i = Some DialGetToken →
      step self s
        (mkSystem (snd (getToken (the_pool s)))
           (<[i := if negb (fst (getToken (the_pool s)) =? 0)
                   then DialRaw else DialSelect]> (running s))
           (held s))
  | step_dial_ok s i c :
      running s !! i = Some DialRaw →
      step self s
        (mkSystem (the_pool s)
           (<[i := DialDone (pool_Conn (mkConn c self)) None]> (running s))
           (mkConn c self :: held s))
  | step_dial_failed s i e :
      running s !! i = Some DialRaw →
      step self s
        (mkSystem (the_pool s) (<[i := DialPutToken e]> (running s)) (held s))
  | step_dial_putToken s i e :
      running s !! i = Some (DialPutToken e) →
      step self s
        (mkSystem (snd (putToken (the_pool s)))
           (<[i := DialDone nil_Conn (Some e)]> (running s)) (held s))
  | step_poll s i :
      running s !! i = Some DialSelect →
      step self s
        (mkSystem (the_pool s) (<[i := DialGetToken]> (running s)) (held s))
  | step_deadline s i :
      running s !! i = Some DialSelect →
      step self s
        (mkSystem (the_pool s)
           (<[i := DialDone nil_Conn (Some (timeout_error ErrTimeout_lit))]>
              (running s))
           (held s))
  | step_call_Close s k c :
      held s !! k = Some c →
      step self s
        (mkSystem (the_pool s) (running s ++ [CloseSelect c])
           (delete k (held s)))
  | step_handoff s i j c :
      running s !! i = Some (CloseSelect c) →
      running s !! j = Some DialSelect →
      step self s
        (mkSystem (the_pool s)
           (<[j := DialDone (pool_Conn c) None]>
              (<[i := CloseDone None]> (running s)))
           (c :: held s))
  | step_close_default s i c :
      running s !! i = Some (CloseSelect c) →
      step self s
        (mkSystem (the_pool s) (<[i := ClosePutToken c]> (running s)) (held s))
  | step_close_putToken s i c :
      running s !! i = Some (ClosePutToken c) →
      step self s
        (mkSystem (snd (putToken (the_pool s)))
           (<[i := CloseRaw c]> (running s)) (held s))
  | step_close_raw s i c err :
      running s !! i = Some (CloseRaw c) →
      step self s
        (mkSystem (the_pool s) (<[i := CloseDone err]> (running s)) (held s)).

(** Does the goroutine hold a token that it has taken, or that came with the
    connection it is closing, and not yet given back or passed on? *)
Definition charged (g : goroutine) : nat :=
  match g with
  | DialRaw | DialPutToken _ | CloseSelect _ | ClosePutToken _ => 1
  | _ => 0
  end.

(** Connections open at the time: those held by callers and those inside
    [Close] before their token is released. *)
Definition closing_now (g : goroutine) : nat :=
  match g with
  | CloseSelect _ | ClosePutToken _ => 1
  | _ => 0
  end.

Definition open_conns (s : system) : nat :=
  (length (held s) + sum_list_with closing_now (running s))%nat.

Definition tokens_out (s : system) : nat :=
  (length (held s) + sum_list_with charged (running s))%nat.

(** The accounting that ties the count to the tokens that are out: the
    count is never negative, and count and tokens out add up to the cap. *)
Definition accounted (max : Z) (s : system) : Prop :=
  0 <= tokens (the_pool s) ∧
  tokens (the_pool s) + Z.of_nat (tokens_out s) = max.

(* ===================================================================== *)
(** ** Shape of the store *)

(** The registry and the store of pools fit together: every registered
    destination points to an allocated pool, two destinations never share a
    pool, and there are as many pools as registered destinations. *)
Definition well_formed (s : State) : Prop :=
  (∀ k p, registry s !! k = Some p → (p < length (heap s))%nat) ∧
  (∀ k1 k2 p,
     registry s !! k1 = Some p → registry s !! k2 = Some p → k1 = k2) ∧
  size (registry s) = length (heap s).

(** Is the goroutine inside [Close] with the raw connection not yet closed?
    That is so up to the return of [c.Conn.Close()], hence also after
    [putToken]. *)
Definition not_yet_closed (g : goroutine) : nat :=
  match g with
  | CloseSelect _ | ClosePutToken _ | CloseRaw _ => 1
  | _ => 0
  end.

(** Raw connections that are open: those wrapped by held connections and
    those of connections inside [Close]. *)
Definition physically_open (s : system) : nat :=
  (length (held s) + sum_list_with not_yet_closed (running s))%nat.

(** A returned pair is a wrapped connection without error, or no
    connection with an error. *)
Definition conn_or_error (o : outcome) : Prop :=
  match o with
  | returned c err =>
      (∃ pc, c = pool_Conn pc ∧ err = None) ∨
      (c = nil_Conn ∧ ∃ e, err = Some e)
  | blocked | fault => True
  end.

(* ===================================================================== *)
(** ** Concrete transports, used to run the code on examples *)

Definition conn_n (n : nat) : rawConn := mkRaw n (λ _, None).

(** A dial function that always succeeds, numbering its connections. *)
Definition dial_ok : DialFunc :=
  λ history _ _, (Some (conn_n (length history)), None).

(** A dial function that always fails. *)
Definition dial_refused : DialFunc :=
  λ _ _ _, (None, Some (transport_error "connection refused")).

(** A dial function that answers with neither connection nor error. *)
Definition dial_nothing : DialFunc := λ _ _ _, (None, None).

(** The destination used in the examples. *)
Definition example_net : string := "tcp".
Definition example_addr : string := "example.com:80".

(** A [Dialer{MaxConnPerHost: 1}] whose only token is taken by an open
    connection to the example destination. *)
Definition one_busy : State :=
  mkState (Some {[ (example_net, example_addr) := 0%nat ]}) 1 [mkPool 0]
    (mkTransport [(example_net, example_addr)] []).

(** A second destination, and a [Dialer{MaxConnPerHost: 2}] that has one
    connection open to the example destination. *)
Definition other_addr : string := "other.example:443".

Definition one_open_of_two : State :=
  run_calls dial_ok [call_Dial example_net example_addr []] (new_Dialer 2).

(* ===================================================================== *)
(** * Properties *)

(** ** Arithmetic of [int] *)

Lemma wrap_id z : is_int z → wrap z = z.
Proof.
  unfold is_int, wrap, min_int, max_int, int_bits. intros H.
  rewrite Z.mod_small; lia.
Qed.

Lemma wrap_max_int : wrap (max_int + 1) = min_int.
Proof. reflexivity. Qed.

Lemma is_int_bounds z : is_int z ↔ - 2 ^ 63 <= z <= 2 ^ 63 - 1.
Proof. reflexivity. Qed.

(** Range side conditions on concrete counts. *)
Ltac in_range :=
  rewrite ?is_int_bounds; unfold max_int, int_bits; simpl; lia.

(** ** The token bucket *)

Lemma getToken_fst p : fst (getToken p) = tokens p.
Proof. reflexivity. Qed.

Lemma getToken_positive p :
  is_int (tokens p) → 0 < tokens p →
  getToken p = (tokens p, mkPool (tokens p - 1)).
Proof.
  intros Hi Hp. unfold getToken.
  destruct (Z.ltb_spec 0 (tokens p)) as [_|]; [|lia].
  rewrite wrap_id; [done|]. rewrite is_int_bounds in *. lia.
Qed.

Lemma getToken_not_positive p :
  tokens p <= 0 → getToken p = (tokens p, p).
Proof.
  intros Hp. unfold getToken.
  destruct (Z.ltb_spec 0 (tokens p)); [lia|done].
Qed.

Lemma putToken_in_range p :
  is_int (tokens p) → tokens p < max_int →
  putToken p = (tokens p, mkPool (tokens p + 1)).
Proof.
  intros Hi Hp. unfold putToken. rewrite wrap_id; [done|].
  rewrite is_int_bounds in *. unfold max_int, int_bits in Hp. lia.
Qed.

(** C7: [putToken] returns the old count and leaves the count one higher,
    whatever the configured maximum is, for every count below the largest
    [int]; in particular from a pool that is already at its maximum the
    count ends strictly above the maximum, and a second release takes it one
    further. *)
Theorem putToken_unconditional (p : pool) (max : Z) :
  is_int (tokens p) → tokens p < max_int →
  fst (putToken p) = tokens p ∧
  tokens (snd (putToken p)) = tokens p + 1 ∧
  (tokens p = max → max < tokens (snd (putToken p))) ∧
  (tokens p = max → max + 1 < max_int →
   tokens (snd (putToken (snd (putToken p)))) = max + 2).
Proof.
  intros Hi Hlt. rewrite putToken_in_range by done. cbn [fst snd tokens].
  repeat split; [lia|]. intros Hmax Hroom.
  rewrite putToken_in_range; cbn [fst snd tokens]; [lia| |lia].
  rewrite is_int_bounds in *. unfold max_int, int_bits in *. lia.
Qed.

Lemma putToken_unconditional_at_max :
  let p := mkPool 10 in
  tokens (snd (putToken p)) = 11 ∧
  (10 < tokens (snd (putToken p))) ∧
  tokens (snd (putToken (snd (putToken p)))) = 12.
Proof.
  assert (Hi : is_int (tokens (mkPool 10))) by in_range.
  assert (Hlt : tokens (mkPool 10) < max_int) by in_range.
  destruct (putToken_unconditional (mkPool 10) 10 Hi Hlt) as (_ & H1 & H2 & H3).
  split; [exact H1|]. split; [apply H2; reflexivity|].
  apply H3; [reflexivity|]. unfold max_int, int_bits. lia.
Defined.

(** ** [maybeDial], case by case *)

Lemma pool_eta p : mkPool (tokens p) = p.
Proof. by destruct p. Qed.

Lemma maybeDial_zero self network addr d p tr :
  tokens p = 0 →
  maybeDial self network addr d p tr = ((nil_Conn, None), p, tr).
Proof.
  intros H0. unfold maybeDial. rewrite getToken_not_positive by lia.
  by rewrite H0.
Qed.

Lemma maybeDial_positive_ok self network addr d p tr c :
  is_int (tokens p) → 0 < tokens p →
  d (dialed tr) network addr = (c, None) →
  maybeDial self network addr d p tr =
    ((pool_Conn (mkConn c self), None), mkPool (tokens p - 1),
     logged network addr tr).
Proof.
  intros Hi Hp Hd. unfold maybeDial. rewrite getToken_positive by done.
  destruct (Z.eqb_spec (tokens p) 0); [lia|]. cbn [negb]. by rewrite Hd.
Qed.

Lemma maybeDial_positive_failed self network addr d p tr c e :
  is_int (tokens p) → 0 < tokens p →
  d (dialed tr) network addr = (c, Some e) →
  maybeDial self network addr d p tr =
    ((of_raw c, Some e), p, logged network addr tr).
Proof.
  intros Hi Hp Hd. unfold maybeDial. rewrite getToken_positive by done.
  destruct (Z.eqb_spec (tokens p) 0); [lia|]. cbn [negb]. rewrite Hd.
  rewrite putToken_in_range; cbn [tokens].
  - replace (tokens p - 1 + 1) with (tokens p) by lia. by rewrite pool_eta.
  - rewrite is_int_bounds in *. lia.
  - rewrite is_int_bounds in Hi. unfold max_int, int_bits. lia.
Qed.

Lemma maybeDial_negative_ok self network addr d p tr c :
  tokens p < 0 →
  d (dialed tr) network addr = (c, None) →
  maybeDial self network addr d p tr =
    ((pool_Conn (mkConn c self), None), p, logged network addr tr).
Proof.
  intros Hp Hd. unfold maybeDial. rewrite getToken_not_positive by lia.
  destruct (Z.eqb_spec (tokens p) 0); [lia|]. cbn [negb]. by rewrite Hd.
Qed.

Lemma maybeDial_negative_failed self network addr d p tr c e :
  is_int (tokens p) → tokens p < 0 →
  d (dialed tr) network addr = (c, Some e) →
  maybeDial self network addr d p tr =
    ((of_raw c, Some e), mkPool (tokens p + 1), logged network addr tr).
Proof.
  intros Hi Hp Hd. unfold maybeDial. rewrite getToken_not_positive by lia.
  destruct (Z.eqb_spec (tokens p) 0); [lia|]. cbn [negb]. rewrite Hd.
  rewrite putToken_in_range; [done..|].
  unfold max_int, int_bits. lia.
Qed.

(** The underlying dial function is called exactly when the count read by
    [getToken] is not zero. *)
Lemma maybeDial_dials_iff_nonzero self network addr d p tr :
  dialed (snd (maybeDial self network addr d p tr)) =
    if decide (tokens p = 0) then dialed tr
    else dialed tr ++ [(network, addr)].
Proof.
  unfold maybeDial, getToken. cbn [fst snd].
  destruct (Z.eqb_spec (tokens p) 0); case_decide; try lia; [done|].
  cbn [negb]. destruct (d (dialed tr) network addr) as [c [e|]]; done.
Qed.

(** C5, the code at a negative count: [getToken] returns the negative count
    without touching it, [maybeDial] compares it with zero only, so the
    underlying dial function is called although the count is not strictly
    positive, and the result is not the (no connection, no error) pair; the
    count is left as it was when the dial succeeds and is one higher when it
    fails. *)
Theorem maybeDial_dials_on_negative_count
    (self : nat) (network addr : string) (d : DialFunc) (p : pool)
    (tr : transport) :
  is_int (tokens p) → tokens p < 0 →
  dialed (snd (maybeDial self network addr d p tr)) =
    dialed tr ++ [(network, addr)] ∧
  fst (fst (maybeDial self network addr d p tr)) ≠ (nil_Conn, None) ∧
  tokens (snd (fst (maybeDial self network addr d p tr))) =
    match snd (d (dialed tr) network addr) with
    | None => tokens p
    | Some _ => tokens p + 1
    end.
Proof.
  intros Hi Hp.
  destruct (d (dialed tr) network addr) as [c [e|]] eqn:Hd.
  - rewrite (maybeDial_negative_failed _ _ _ _ _ _ c e) by done. done.
  - rewrite (maybeDial_negative_ok _ _ _ _ _ _ c) by done. done.
Qed.

Lemma maybeDial_dials_on_negative_count_minus_one :
  let r := maybeDial 0 "tcp" "example.com:80" dial_ok (mkPool (-1))
             (mkTransport [] []) in
  dialed (snd r) = [("tcp", "example.com:80")] ∧
  fst (fst r) ≠ (nil_Conn, None) ∧
  tokens (snd (fst r)) = -1.
Proof.
  apply (maybeDial_dials_on_negative_count 0 "tcp" "example.com:80" dial_ok
           (mkPool (-1)) (mkTransport [] [])).
  - rewrite is_int_bounds. simpl. lia.
  - simpl. lia.
Defined.

(** ** The registry *)

Lemma Dialer_pool_trans network addr s :
  trans (snd (Dialer_pool network addr s)) = trans s.
Proof. unfold Dialer_pool. by destruct (_ !! _). Qed.

Lemma Dialer_pool_MaxConnPerHost network addr s :
  MaxConnPerHost (snd (Dialer_pool network addr s)) = MaxConnPerHost s.
Proof. unfold Dialer_pool. by destruct (_ !! _). Qed.

Lemma Dialer_pool_found network addr s m p :
  conns s = Some m → m !! (network, addr) = Some p →
  Dialer_pool network addr s = (p, s).
Proof.
  intros Hc Hm. unfold Dialer_pool, registry. rewrite Hc, Hm.
  destruct s; simpl in *. by subst.
Qed.

Lemma Dialer_pool_fresh network addr s :
  registry s !! (network, addr) = None →
  Dialer_pool network addr s =
    (length (heap s),
     mkState (Some (<[(network, addr) := length (heap s)]> (registry s)))
       (MaxConnPerHost s) (heap s ++ [mkPool (max_of s)]) (trans s)).
Proof. intros Hm. unfold Dialer_pool. by rewrite Hm. Qed.

Lemma at_pool_run {A : Type} self (f : pool → transport → A * pool * transport)
    s pl a pl' tr' :
  heap s !! self = Some pl → f pl (trans s) = (a, pl', tr') →
  at_pool self f s = Some (a, store self pl' tr' s).
Proof. intros Hh Hf. unfold at_pool. by rewrite Hh, Hf. Qed.

Lemma store_same self s pl :
  heap s !! self = Some pl → store self pl (trans s) s = s.
Proof.
  intros Hh. unfold store. rewrite list_insert_id by done. by destruct s.
Qed.

Lemma store_lookup self pl' tr' s pl :
  heap s !! self = Some pl → heap (store self pl' tr' s) !! self = Some pl'.
Proof.
  intros Hh. unfold store. simpl. apply list_lookup_insert_eq.
  by eapply lookup_lt_Some.
Qed.

Lemma store_lookup_ne self q pl' tr' s :
  self ≠ q → heap (store self pl' tr' s) !! q = heap s !! q.
Proof. intros Hne. unfold store. simpl. by apply list_lookup_insert_ne. Qed.

(** ** [Dial] *)

(** C4: when the count is positive, so that [getToken] takes a token, and
    the underlying dial fails (no connection, an error), [maybeDial] returns
    no connection and that very error and leaves the pool as it found it;
    [Dial] returns no connection and that error without waiting for any
    event, and the pool's count after the call is the count before it. *)
Theorem dial_error_releases_token
    (d : DialFunc) (network addr : string) (s s1 : State) (p : nat)
    (pl : pool) (e : error_value) (evs : list select_event) :
  Dialer_pool network addr s = (p, s1) →
  heap s1 !! p = Some pl →
  is_int (tokens pl) → 0 < tokens pl →
  d (dialed (trans s)) network addr = (None, Some e) →
  maybeDial p network addr d pl (trans s1) =
    ((nil_Conn, Some e), pl, logged network addr (trans s)) ∧
  Dial d network addr evs s =
    (store p pl (logged network addr (trans s)) s1,
     returned nil_Conn (Some e)) ∧
  heap (fst (Dial d network addr evs s)) !! p = Some pl.
Proof.
  intros Hpool Hh Hi Hpos Hd.
  assert (Htr : trans s1 = trans s).
  { by rewrite <- (Dialer_pool_trans network addr s), Hpool. }
  assert (Hm : maybeDial p network addr d pl (trans s1) =
               ((nil_Conn, Some e), pl, logged network addr (trans s))).
  { rewrite Htr. by apply (maybeDial_positive_failed _ _ _ _ _ _ None e). }
  split; [exact Hm|].
  assert (HD : Dial d network addr evs s =
    (store p pl (logged network addr (trans s)) s1,
     returned nil_Conn (Some e))).
  { unfold Dial. rewrite Hpool.
    by rewrite (at_pool_run _ _ _ _ _ _ _ Hh Hm). }
  split; [exact HD|]. rewrite HD. cbn [fst]. exact (store_lookup _ _ _ _ _ Hh).
Qed.

Lemma dial_error_releases_token_refused :
  let s := new_Dialer 1 in
  Dial dial_refused "tcp" "example.com:80" [] s =
    (store 0 (mkPool 1) (logged "tcp" "example.com:80" (trans s))
       (snd (Dialer_pool "tcp" "example.com:80" s)),
     returned nil_Conn (Some (transport_error "connection refused"))) ∧
  heap (fst (Dial dial_refused "tcp" "example.com:80" [] s)) !! 0%nat =
    Some (mkPool 1).
Proof.
  assert (Hi : is_int (tokens (mkPool 1))) by in_range.
  assert (Hpos : 0 < tokens (mkPool 1)) by (simpl; lia).
  exact (proj2 (dial_error_releases_token dial_refused "tcp" "example.com:80"
           (new_Dialer 1) (snd (Dialer_pool "tcp" "example.com:80" (new_Dialer 1)))
           0%nat (mkPool 1) (transport_error "connection refused") []
           eq_refl eq_refl Hi Hpos eq_refl)).
Defined.

(** C9: when the pool of the destination (found in the registry, or created
    by this very call) has a strictly positive count and the underlying dial
    succeeds, [Dial] returns the new wrapped connection whatever events the
    wait loop would have met, also when there is none at all: the wait loop
    is not entered. The count goes down by one. *)
Theorem Dial_immediate
    (d : DialFunc) (network addr : string) (s s1 : State) (p : nat)
    (pl : pool) (c : option rawConn) (evs : list select_event) :
  Dialer_pool network addr s = (p, s1) →
  heap s1 !! p = Some pl →
  is_int (tokens pl) → 0 < tokens pl →
  d (dialed (trans s)) network addr = (c, None) →
  Dial d network addr evs s =
    (store p (mkPool (tokens pl - 1)) (logged network addr (trans s)) s1,
     returned (pool_Conn (mkConn c p)) None) ∧
  Dial d network addr [] s = Dial d network addr evs s.
Proof.
  intros Hpool Hh Hi Hpos Hd.
  assert (Htr : trans s1 = trans s).
  { by rewrite <- (Dialer_pool_trans network addr s), Hpool. }
  assert (Hm : maybeDial p network addr d pl (trans s1) =
               ((pool_Conn (mkConn c p), None), mkPool (tokens pl - 1),
                logged network addr (trans s))).
  { rewrite Htr. by apply maybeDial_positive_ok. }
  unfold Dial. rewrite Hpool.
  by rewrite (at_pool_run _ _ _ _ _ _ _ Hh Hm).
Qed.

Lemma Dial_immediate_first_call :
  let s := new_Dialer 0 in
  Dial dial_ok "tcp" "example.com:80" [deadline] s =
    (store 0 (mkPool 9) (logged "tcp" "example.com:80" (trans s))
       (snd (Dialer_pool "tcp" "example.com:80" s)),
     returned (pool_Conn (mkConn (Some (conn_n 0)) 0)) None) ∧
  Dial dial_ok "tcp" "example.com:80" [] s =
    Dial dial_ok "tcp" "example.com:80" [deadline] s.
Proof.
  assert (Hi : is_int (tokens (mkPool 10))) by in_range.
  assert (Hpos : 0 < tokens (mkPool 10)) by (simpl; lia).
  exact (Dial_immediate dial_ok "tcp" "example.com:80"
           (new_Dialer 0) (snd (Dialer_pool "tcp" "example.com:80" (new_Dialer 0)))
           0%nat (mkPool 10) (Some (conn_n 0)) [deadline]
           eq_refl eq_refl Hi Hpos eq_refl).
Defined.

(** The wait loop, when the deadline fires, whatever the state. *)
Lemma wait_loop_deadline self network addr d evs s :
  wait_loop self network addr d (deadline :: evs) s =
    (s, returned nil_Conn (Some (timeout_error ErrTimeout_lit))).
Proof. reflexivity. Qed.

(** Polling an empty bucket changes nothing and goes round the loop. *)
Lemma wait_loop_polls_empty self network addr d k evs s pl :
  heap s !! self = Some pl → tokens pl = 0 →
  wait_loop self network addr d (repeat poll k ++ evs) s =
    wait_loop self network addr d evs s.
Proof.
  intros Hh H0. induction k as [|k IH]; [done|]. cbn [repeat app wait_loop].
  rewrite (at_pool_run _ _ _ _ _ _ _ Hh
             (maybeDial_zero self network addr d pl (trans s) H0)).
  by rewrite (store_same _ _ _ Hh).
Qed.

(** C6: when the bucket of the destination is empty at the first attempt and
    at each of the [k] polls that follow, and then the deadline fires with no
    connection received, [Dial] returns no connection and an [ErrTimeout],
    whose [Temporary] and [Timeout] methods both answer true; and in
    whatever state the wait loop is when the deadline fires, that same error
    is what it returns. *)
Theorem Dial_timeout
    (d : DialFunc) (network addr : string) (s s1 : State) (p : nat)
    (pl : pool) (k : nat) (evs : list select_event) :
  Dialer_pool network addr s = (p, s1) →
  heap s1 !! p = Some pl →
  tokens pl = 0 →
  ∃ e : ErrTimeout,
    Dial d network addr (repeat poll k ++ deadline :: evs) s =
      (s1, returned nil_Conn (Some (timeout_error e))) ∧
    Temporary e = true ∧ Timeout e = true ∧
    ∀ s' evs',
      wait_loop p network addr d (deadline :: evs') s' =
        (s', returned nil_Conn (Some (timeout_error e))).
Proof.
  intros Hpool Hh H0. exists ErrTimeout_lit. split; [|done].
  unfold Dial. rewrite Hpool.
  rewrite (at_pool_run _ _ _ _ _ _ _ Hh
             (maybeDial_zero p network addr d pl (trans s1) H0)).
  rewrite (store_same _ _ _ Hh).
  by rewrite (wait_loop_polls_empty _ _ _ _ _ _ _ pl).
Qed.

Lemma Dial_timeout_one_busy :
  ∃ e : ErrTimeout,
    Dial dial_ok example_net example_addr [poll; poll; deadline] one_busy =
      (one_busy, returned nil_Conn (Some (timeout_error e))) ∧
    Temporary e = true ∧ Timeout e = true ∧
    ∀ s' evs',
      wait_loop 0 example_net example_addr dial_ok (deadline :: evs') s' =
        (s', returned nil_Conn (Some (timeout_error e))).
Proof.
  exact (Dial_timeout dial_ok example_net example_addr one_busy one_busy
           0%nat (mkPool 0) 2 [] eq_refl eq_refl eq_refl).
Defined.

(** The scenario with a maximum of one: a first [Dial] gets the connection,
    a second one times out, and after the connection is closed (nobody
    waiting) a third one succeeds at once. *)
Example scenario_max_one :
  let c1 := mkConn (Some (conn_n 0)) 0 in
  let s1 := fst (Dial dial_ok example_net example_addr [] (new_Dialer 1)) in
  let s2 := fst (Dial dial_ok example_net example_addr [poll; deadline] s1) in
  let s3 := after (Close c1 false s2) in
  snd (Dial dial_ok example_net example_addr [] (new_Dialer 1)) =
    returned (pool_Conn c1) None ∧
  s1 = one_busy ∧
  snd (Dial dial_ok example_net example_addr [poll; deadline] s1) =
    returned nil_Conn (Some (timeout_error ErrTimeout_lit)) ∧
  ended (Close c1 false s2) = close_returned None ∧
  heap s3 = [mkPool 1] ∧
  snd (Dial dial_ok example_net example_addr [] s3) =
    returned (pool_Conn (mkConn (Some (conn_n 1)) 0)) None.
Proof. vm_compute. repeat split. Qed.

(** ** [Close] *)

(** C2: when a goroutine is receiving on the pool's channel, [Close]
    returns [nil] and sends the wrapped connection itself on the channel; the
    state is left as it was, so no raw connection is closed and no pool's
    count changes; and the [Dial] that receives it returns exactly that
    wrapped connection, also leaving the state as it was. *)
Theorem Close_handoff (c : conn) (s : State) :
  ended (Close c true s) = close_returned None ∧
  sent (Close c true s) = Some c ∧
  after (Close c true s) = s ∧
  closed (trans (after (Close c true s))) = closed (trans s) ∧
  heap (after (Close c true s)) = heap s ∧
  ∀ self network addr d evs s',
    wait_loop self network addr d (recv c :: evs) s' =
      (s', returned (pool_Conn c) None).
Proof. repeat split. Qed.

Lemma Close_default_run c s pl :
  heap s !! conn_pool c = Some pl →
  Close c false s =
    let s1 := store (conn_pool c) (snd (putToken pl)) (trans s) s in
    match Conn c with
    | None => mkClosing s1 None close_panic
    | Some r =>
        mkClosing
          (mkState (conns s) (MaxConnPerHost s) (heap s1)
             (mkTransport (dialed (trans s)) (closed (trans s) ++ [fd r])))
          None (close_returned (raw_Close r (closed (trans s))))
    end.
Proof.
  intros Hh. unfold Close.
  rewrite (at_pool_run _ (λ p tr, (putToken p, tr)) _ pl
             (fst (putToken pl)) (snd (putToken pl)) (trans s) Hh)
    by (by destruct (putToken pl)).
  done.
Qed.

(** C3: when no goroutine is receiving on the pool's channel, [Close] of a
    connection that wraps the raw connection [r] sends nothing, leaves the
    count of the connection's pool exactly one higher, leaves every other
    pool alone, closes [r] (and only [r]), and returns what [r]'s own [Close]
    answered, whatever that answer is. The count is below the largest [int],
    as it is whenever the connection's token is still charged. *)
Theorem Close_default (c : conn) (s : State) (pl : pool) (r : rawConn) :
  heap s !! conn_pool c = Some pl →
  Conn c = Some r →
  is_int (tokens pl) → tokens pl < max_int →
  sent (Close c false s) = None ∧
  heap (after (Close c false s)) !! conn_pool c =
    Some (mkPool (tokens pl + 1)) ∧
  (∀ q, q ≠ conn_pool c →
        heap (after (Close c false s)) !! q = heap s !! q) ∧
  closed (trans (after (Close c false s))) = closed (trans s) ++ [fd r] ∧
  ended (Close c false s) =
    close_returned (raw_Close r (closed (trans s))).
Proof.
  intros Hh Hr Hi Hlt. rewrite (Close_default_run _ _ _ Hh), Hr.
  rewrite putToken_in_range by done. cbn [sent after ended heap trans closed snd].
  repeat split.
  - exact (store_lookup _ _ _ _ _ Hh).
  - intros q Hq. by apply store_lookup_ne.
Qed.

Lemma Close_default_one_busy :
  let c := mkConn (Some (mkRaw 0 (λ _, Some (transport_error "broken pipe")))) 0 in
  sent (Close c false one_busy) = None ∧
  heap (after (Close c false one_busy)) !! 0%nat = Some (mkPool 1) ∧
  (∀ q, q ≠ 0%nat →
        heap (after (Close c false one_busy)) !! q = heap one_busy !! q) ∧
  closed (trans (after (Close c false one_busy))) = [0%nat] ∧
  ended (Close c false one_busy) =
    close_returned (Some (transport_error "broken pipe")).
Proof.
  assert (Hi : is_int (tokens (mkPool 0))) by in_range.
  assert (Hlt : tokens (mkPool 0) < max_int) by in_range.
  exact (Close_default
           (mkConn (Some (mkRaw 0 (λ _, Some (transport_error "broken pipe")))) 0)
           one_busy (mkPool 0)
           (mkRaw 0 (λ _, Some (transport_error "broken pipe")))
           eq_refl eq_refl Hi Hlt).
Defined.

(** A wrapped connection without raw connection: the token is released
    before the method call on the [nil] interface panics. *)
Lemma Close_default_nil_Conn c s pl :
  heap s !! conn_pool c = Some pl → Conn c = None →
  ended (Close c false s) = close_panic ∧
  heap (after (Close c false s)) !! conn_pool c = Some (snd (putToken pl)).
Proof.
  intros Hh Hr. rewrite (Close_default_run _ _ _ Hh), Hr. split; [done|].
  exact (store_lookup _ _ _ _ _ Hh).
Qed.

(** ** A negative [MaxConnPerHost] *)

(** C10 as stated fails: with [MaxConnPerHost = -1] and a transport whose
    dial always succeeds, one [Dial] followed by the [Close] of the
    connection it returned (nobody waiting) brings the count to zero, and the
    next [Dial] gets no connection: it waits and ends with the timeout
    error. *)
Lemma negative_cap_blocks_after_close :
  ¬ (∀ (max : Z) (d : DialFunc) (calls : list api_call)
       (network addr : string) (evs : list select_event),
       max < 0 →
       (∀ history n a, snd (d history n a) = None) →
       ∃ c : conn,
         snd (Dial d network addr evs (run_calls d calls (new_Dialer max))) =
           returned (pool_Conn c) None).
Proof.
  intros H.
  destruct (H (-1) dial_ok
              [call_Dial example_net example_addr [];
               call_Close (mkConn (Some (conn_n 0)) 0) false]
              example_net example_addr [deadline]) as [c Hc].
  - lia.
  - done.
  - vm_compute in Hc. discriminate Hc.
Qed.

(** C10, amended: a pool created under a negative [MaxConnPerHost] starts
    with that negative count; and whenever the count of the destination's
    pool is negative, [maybeDial] calls the underlying dial function and does
    not decrement the count, so that a [Dial] whose underlying dial succeeds
    returns a new wrapped connection without waiting and leaves the count as
    it was, however many connections are open. *)
Theorem negative_count_is_no_cap
    (d : DialFunc) (network addr : string) (s s1 : State) (p : nat)
    (pl : pool) (c : option rawConn) (evs : list select_event) :
  Dialer_pool network addr s = (p, s1) →
  heap s1 !! p = Some pl →
  (registry s !! (network, addr) = None → MaxConnPerHost s < 0 →
   tokens pl = MaxConnPerHost s) ∧
  (tokens pl < 0 →
   d (dialed (trans s)) network addr = (c, None) →
   maybeDial p network addr d pl (trans s1) =
     ((pool_Conn (mkConn c p), None), pl, logged network addr (trans s)) ∧
   Dial d network addr evs s =
     (store p pl (logged network addr (trans s)) s1,
      returned (pool_Conn (mkConn c p)) None) ∧
   heap (fst (Dial d network addr evs s)) !! p = Some pl).
Proof.
  intros Hpool Hh. split.
  - intros Hnew Hneg. rewrite (Dialer_pool_fresh _ _ _ Hnew) in Hpool.
    injection Hpool as <- <-. cbn [heap] in Hh.
    rewrite lookup_app_r, Nat.sub_diag in Hh by done.
    injection Hh as <-. cbn [tokens]. unfold max_of.
    destruct (Z.eqb_spec (MaxConnPerHost s) 0); [lia|done].
  - intros Hneg Hd.
    assert (Htr : trans s1 = trans s).
    { by rewrite <- (Dialer_pool_trans network addr s), Hpool. }
    assert (Hm : maybeDial p network addr d pl (trans s1) =
                 ((pool_Conn (mkConn c p), None), pl,
                  logged network addr (trans s))).
    { rewrite Htr. by apply maybeDial_negative_ok. }
    split; [exact Hm|].
    assert (HD : Dial d network addr evs s =
      (store p pl (logged network addr (trans s)) s1,
       returned (pool_Conn (mkConn c p)) None)).
    { unfold Dial. rewrite Hpool.
      by rewrite (at_pool_run _ _ _ _ _ _ _ Hh Hm). }
    split; [exact HD|]. rewrite HD. cbn [fst].
    exact (store_lookup _ _ _ _ _ Hh).
Qed.

Lemma negative_count_is_no_cap_minus_one :
  let s := new_Dialer (-1) in
  tokens (mkPool (-1)) = MaxConnPerHost s ∧
  Dial dial_ok example_net example_addr [] s =
    (store 0 (mkPool (-1)) (logged example_net example_addr (trans s))
       (snd (Dialer_pool example_net example_addr s)),
     returned (pool_Conn (mkConn (Some (conn_n 0)) 0)) None) ∧
  heap (fst (Dial dial_ok example_net example_addr [] s)) !! 0%nat =
    Some (mkPool (-1)).
Proof.
  destruct (negative_count_is_no_cap dial_ok example_net example_addr
              (new_Dialer (-1))
              (snd (Dialer_pool example_net example_addr (new_Dialer (-1))))
              0%nat (mkPool (-1)) (Some (conn_n 0)) [] eq_refl eq_refl)
    as [Hcreated Hdial].
  split.
  - apply Hcreated; [reflexivity | simpl; lia].
  - apply Hdial; [simpl; lia | reflexivity].
Defined.

(** ** One pool per destination *)

Lemma Dialer_pool_registered_id network addr s p :
  registry s !! (network, addr) = Some p →
  Dialer_pool network addr s = (p, s).
Proof.
  unfold registry. destruct (conns s) as [m|] eqn:Hc; [|done].
  by apply Dialer_pool_found.
Qed.

Lemma Dialer_pool_keeps_registered network addr s k p :
  registry s !! k = Some p →
  registry (snd (Dialer_pool network addr s)) !! k = Some p.
Proof.
  intros Hk. destruct (registry s !! (network, addr)) as [q|] eqn:Hq.
  - by rewrite (Dialer_pool_registered_id _ _ _ _ Hq).
  - rewrite (Dialer_pool_fresh _ _ _ Hq). cbn [snd registry conns].
    rewrite lookup_insert_ne; [done|]. congruence.
Qed.

Lemma Dialer_pool_keeps_pool network addr s p pl :
  heap s !! p = Some pl →
  heap (snd (Dialer_pool network addr s)) !! p = Some pl.
Proof.
  intros Hp. destruct (registry s !! (network, addr)) as [q|] eqn:Hq.
  - by rewrite (Dialer_pool_registered_id _ _ _ _ Hq).
  - rewrite (Dialer_pool_fresh _ _ _ Hq). cbn [snd heap].
    by apply lookup_app_l_Some.
Qed.

Lemma pool_calls_keep keys s k p pl :
  registry s !! k = Some p → heap s !! p = Some pl →
  registry (pool_calls keys s) !! k = Some p ∧
  heap (pool_calls keys s) !! p = Some pl.
Proof.
  revert s. induction keys as [|[network addr] keys IH]; intros s Hk Hp; [done|].
  apply IH; [by apply Dialer_pool_keeps_registered|
             by apply Dialer_pool_keeps_pool].
Qed.

Lemma at_pool_registry {A : Type} self
    (f : pool → transport → A * pool * transport) s a s' :
  at_pool self f s = Some (a, s') → registry s' = registry s.
Proof.
  unfold at_pool. destruct (heap s !! self) as [pl|]; [|done].
  destruct (f pl (trans s)) as [[a' pl'] tr']. by intros [= _ <-].
Qed.

Lemma wait_loop_registry self network addr d evs s :
  registry (fst (wait_loop self network addr d evs s)) = registry s.
Proof.
  revert s. induction evs as [|[c| |] evs IH]; intros s; try done.
  cbn [wait_loop].
  destruct (at_pool self (maybeDial self network addr d) s)
    as [[[c err] s']|] eqn:Hat; [|done].
  apply at_pool_registry in Hat.
  destruct err as [e|]; [done|]. destruct c; try done.
  by rewrite IH.
Qed.

Lemma Dial_keeps_registered d network addr evs s k p :
  registry s !! k = Some p →
  registry (fst (Dial d network addr evs s)) !! k = Some p.
Proof.
  intros Hk. unfold Dial.
  pose proof (Dialer_pool_keeps_registered network addr s k p Hk) as H1.
  destruct (Dialer_pool network addr s) as [q s1]. cbn [snd] in H1.
  destruct (at_pool q (maybeDial q network addr d) s1)
    as [[[c err] s2]|] eqn:Hat; [|done].
  apply at_pool_registry in Hat.
  destruct err as [e|]; [cbn [fst]; by rewrite Hat|].
  destruct c; cbn [fst]; rewrite ?wait_loop_registry, Hat; done.
Qed.

Lemma Close_registry c ready s :
  registry (after (Close c ready s)) = registry s.
Proof.
  unfold Close. destruct ready; [done|].
  destruct (at_pool _ _ s) as [[a s1]|] eqn:Hat; [|done].
  apply at_pool_registry in Hat. by destruct (Conn c).
Qed.

Lemma run_calls_keep_registered d calls s k p :
  registry s !! k = Some p →
  registry (run_calls d calls s) !! k = Some p.
Proof.
  revert s. induction calls as [|a calls IH]; intros s Hk; [done|].
  apply IH. destruct a as [network addr evs|c ready]; cbn [run_call].
  - by apply Dial_keeps_registered.
  - by rewrite Close_registry.
Qed.

(** C8: the first call of [pool] for a key allocates a new pool whose count
    is [MaxConnPerHost], or 10 when [MaxConnPerHost] is 0, and leaves a map
    in [conns] (also when there was none); after that, whatever registry
    look-ups, [Dial]s and [Close]s have happened in between, a call of [pool]
    with the same key returns the same pointer and changes nothing, so that
    no second pool is ever allocated for the key; and look-ups alone leave
    the pool behind the pointer as it was created. *)
Theorem pool_created_once (network addr : string) (s : State) :
  registry s !! (network, addr) = None →
  ∃ (p : nat) (s1 : State),
    Dialer_pool network addr s = (p, s1) ∧
    heap s !! p = None ∧
    heap s1 = heap s ++
      [mkPool (if MaxConnPerHost s =? 0 then 10 else MaxConnPerHost s)] ∧
    heap s1 !! p =
      Some (mkPool (if MaxConnPerHost s =? 0 then 10 else MaxConnPerHost s)) ∧
    conns s1 = Some (<[(network, addr) := p]> (registry s)) ∧
    (∀ keys : list (string * string),
       Dialer_pool network addr (pool_calls keys s1) =
         (p, pool_calls keys s1) ∧
       heap (pool_calls keys s1) !! p = heap s1 !! p) ∧
    (∀ (d : DialFunc) (calls : list api_call),
       Dialer_pool network addr (run_calls d calls s1) =
         (p, run_calls d calls s1)).
Proof.
  intros Hnew. eexists _, _. split; [by apply Dialer_pool_fresh|].
  assert (Hcell : (heap s ++ [mkPool (max_of s)]) !! length (heap s) =
                  Some (mkPool (max_of s))).
  { by rewrite lookup_app_r, Nat.sub_diag. }
  assert (Hreg : ∀ s1, conns s1 =
                   Some (<[(network, addr) := length (heap s)]> (registry s)) →
                 registry s1 !! (network, addr) = Some (length (heap s))).
  { intros s1 Hc. unfold registry at 1. rewrite Hc. apply lookup_insert_eq. }
  cbn [heap conns]. repeat split.
  - by apply lookup_ge_None.
  - exact Hcell.
  - apply Dialer_pool_registered_id.
    by eapply pool_calls_keep; [apply Hreg|exact Hcell].
  - rewrite Hcell. by eapply pool_calls_keep; [apply Hreg|exact Hcell].
  - intros d calls. apply Dialer_pool_registered_id.
    by apply run_calls_keep_registered, Hreg.
Qed.

Lemma pool_created_once_default :
  ∃ (p : nat) (s1 : State),
    Dialer_pool example_net example_addr (new_Dialer 0) = (p, s1) ∧
    heap (new_Dialer 0) !! p = None ∧
    heap s1 = [mkPool 10] ∧
    heap s1 !! p = Some (mkPool 10) ∧
    conns s1 = Some (<[(example_net, example_addr) := p]> ∅) ∧
    (∀ keys : list (string * string),
       Dialer_pool example_net example_addr (pool_calls keys s1) =
         (p, pool_calls keys s1) ∧
       heap (pool_calls keys s1) !! p = heap s1 !! p) ∧
    (∀ (d : DialFunc) (calls : list api_call),
       Dialer_pool example_net example_addr (run_calls d calls s1) =
         (p, run_calls d calls s1)).
Proof.
  exact (pool_created_once example_net example_addr (new_Dialer 0) eq_refl).
Defined.

(** ** Token accounting under interleaving *)

Local Open Scope nat_scope.

Lemma sum_list_with_insert {A : Type} (f : A → nat) (l : list A) i x y :
  l !! i = Some x →
  sum_list_with f (<[i := y]> l) + f x = sum_list_with f l + f y.
Proof.
  revert i. induction l as [|a l IH]; intros [|i] Hl; simplify_eq/=; [lia|].
  specialize (IH i Hl). lia.
Qed.

Lemma sum_list_with_le {A : Type} (f g : A → nat) (l : list A) :
  (∀ a, f a ≤ g a) → sum_list_with f l ≤ sum_list_with g l.
Proof.
  intros Hfg. induction l as [|a l IH]; simpl; [lia|].
  specialize (Hfg a). lia.
Qed.

Lemma open_conns_le_tokens_out s : open_conns s ≤ tokens_out s.
Proof.
  unfold open_conns, tokens_out.
  pose proof (sum_list_with_le closing_now charged (running s)) as H.
  assert (∀ g, closing_now g ≤ charged g) as Hg by (intros []; simpl; lia).
  specialize (H Hg). lia.
Qed.

Local Open Scope Z_scope.

(** Replacing goroutine [i], which was at [g], by [g']. *)
Lemma tokens_out_insert s i g g' p' h' :
  running s !! i = Some g →
  Z.of_nat (tokens_out (mkSystem p' (<[i := g']> (running s)) h')) +
    Z.of_nat (charged g) + Z.of_nat (length (held s)) =
  Z.of_nat (tokens_out s) + Z.of_nat (charged g') + Z.of_nat (length h').
Proof.
  intros Hi. unfold tokens_out. cbn [held running].
  pose proof (sum_list_with_insert charged (running s) i g g' Hi). lia.
Qed.

Lemma tokens_out_spawn s g p' h' :
  Z.of_nat (tokens_out (mkSystem p' (running s ++ [g]) h')) +
    Z.of_nat (length (held s)) =
  Z.of_nat (tokens_out s) + Z.of_nat (charged g) + Z.of_nat (length h').
Proof.
  unfold tokens_out. cbn [held running]. rewrite sum_list_with_app. simpl. lia.
Qed.

Lemma step_accounted self max s s' :
  max <= max_int → accounted max s → step self s s' → accounted max s'.
Proof.
  intros Hmax [Hnn Hsum] Hstep.
  assert (Hint : is_int (tokens (the_pool s))).
  { rewrite is_int_bounds. unfold max_int, int_bits in Hmax. lia. }
  unfold accounted.
  destruct Hstep as
    [ s | s i Hi | s i c Hi | s i e Hi | s i e Hi | s i Hi | s i Hi
    | s k c Hk | s i j c Hi Hj | s i c Hi | s i c Hi | s i c err Hi ];
    cbn [the_pool].
  - pose proof (tokens_out_spawn s DialGetToken (the_pool s) (held s)).
    simpl in *. lia.
  - destruct (Z.lt_total 0 (tokens (the_pool s))) as [Hpos|[Hz|Hneg]]; [| |lia].
    + rewrite getToken_positive by done. cbn [fst snd tokens].
      destruct (Z.eqb_spec (tokens (the_pool s)) 0); [lia|]. cbn [negb].
      pose proof (tokens_out_insert s i _ DialRaw
                    (mkPool (tokens (the_pool s) - 1)) (held s) Hi).
      simpl in *. lia.
    + rewrite getToken_not_positive by lia. cbn [fst snd].
      destruct (Z.eqb_spec (tokens (the_pool s)) 0); [|lia]. cbn [negb].
      pose proof (tokens_out_insert s i _ DialSelect (the_pool s) (held s) Hi).
      simpl in *. lia.
  - pose proof (tokens_out_insert s i _
                  (DialDone (pool_Conn (mkConn c self)) None) (the_pool s)
                  (mkConn c self :: held s) Hi).
    simpl in *. lia.
  - pose proof (tokens_out_insert s i _ (DialPutToken e) (the_pool s)
                  (held s) Hi).
    simpl in *. lia.
  - pose proof (tokens_out_insert s i _ (DialDone nil_Conn (Some e))
                  (snd (putToken (the_pool s))) (held s) Hi) as Hout.
    cbn [charged] in Hout.
    rewrite putToken_in_range in * by (done || lia). cbn [snd tokens] in *.
    lia.
  - pose proof (tokens_out_insert s i _ DialGetToken (the_pool s) (held s) Hi).
    simpl in *. lia.
  - pose proof (tokens_out_insert s i _
                  (DialDone nil_Conn (Some (timeout_error ErrTimeout_lit)))
                  (the_pool s) (held s) Hi).
    simpl in *. lia.
  - pose proof (tokens_out_spawn s (CloseSelect c) (the_pool s)
                  (delete k (held s))) as Hout.
    rewrite length_delete in Hout by done.
    apply lookup_lt_Some in Hk. cbn [charged] in Hout. lia.
  - assert (Hne : i ≠ j) by congruence.
    pose proof (tokens_out_insert s i _ (CloseDone None) (the_pool s)
                  (held s) Hi) as H1.
    pose proof (tokens_out_insert
                  (mkSystem (the_pool s) (<[i := CloseDone None]> (running s))
                     (held s))
                  j DialSelect (DialDone (pool_Conn c) None) (the_pool s)
                  (c :: held s)) as H2.
    cbn [running held] in H2. rewrite list_lookup_insert_ne in H2 by done.
    specialize (H2 Hj). simpl in *. lia.
  - pose proof (tokens_out_insert s i _ (ClosePutToken c) (the_pool s)
                  (held s) Hi).
    simpl in *. lia.
  - pose proof (tokens_out_insert s i _ (CloseRaw c)
                  (snd (putToken (the_pool s))) (held s) Hi) as Hout.
    cbn [charged] in Hout.
    rewrite putToken_in_range in * by (done || lia). cbn [snd tokens] in *.
    lia.
  - pose proof (tokens_out_insert s i _ (CloseDone err) (the_pool s)
                  (held s) Hi).
    simpl in *. lia.
Qed.

Lemma reachable_accounted self max p s :
  max <= max_int → 0 <= max → tokens p = max →
  rtc (step self) (start p) s → accounted max s.
Proof.
  intros Hmax Hnn Hp Hreach.
  revert s Hreach. apply (rtc_ind_r (accounted max) (start p)).
  - unfold accounted, tokens_out. simpl. lia.
  - intros y z _ Hstep Hy. by eapply step_accounted.
Qed.

(** C1: for the pool that [pool] creates under a [MaxConnPerHost] that is
    not negative, with [max] the maximum that [pool] derives from it
    ([MaxConnPerHost] itself, or the default when it is 0), every state that
    goroutines calling [Dial] and [Close] can reach, in any interleaving in
    which [Close] is only called on a connection that is held, has
    [0 <= tokens <= max], has at most [max] open connections charged with a
    token, and has count and tokens out adding up to [max]. *)
Theorem tokens_within_cap
    (network addr : string) (s0 s1 : State) (p : nat) (pl : pool)
    (sys : system) :
  registry s0 !! (network, addr) = None →
  0 <= MaxConnPerHost s0 <= max_int →
  Dialer_pool network addr s0 = (p, s1) →
  heap s1 !! p = Some pl →
  rtc (step p) (start pl) sys →
  0 <= tokens (the_pool sys) <= max_of s0 ∧
  Z.of_nat (open_conns sys) <= max_of s0 ∧
  tokens (the_pool sys) + Z.of_nat (tokens_out sys) = max_of s0.
Proof.
  intros Hnew Hcfg Hpool Hh Hreach.
  rewrite (Dialer_pool_fresh _ _ _ Hnew) in Hpool. injection Hpool as <- <-.
  cbn [heap] in Hh. rewrite lookup_app_r, Nat.sub_diag in Hh by done.
  injection Hh as <-.
  assert (Hmax : 0 <= max_of s0 <= max_int).
  { unfold max_of, DefaultMaxConnsPerHost.
    destruct (Z.eqb_spec (MaxConnPerHost s0) 0); [|lia].
    unfold max_int, int_bits. lia. }
  destruct (reachable_accounted (length (heap s0)) (max_of s0)
              (mkPool (max_of s0)) sys) as [Hnn Hsum];
    [lia | lia | done | done |].
  pose proof (open_conns_le_tokens_out sys). lia.
Qed.

Lemma tokens_within_cap_one_dialed :
  let c := mkConn (Some (conn_n 0)) 0 in
  let sys := mkSystem (mkPool 0) [DialDone (pool_Conn c) None] [c] in
  0 <= tokens (the_pool sys) <= 1 ∧
  Z.of_nat (open_conns sys) <= 1 ∧
  tokens (the_pool sys) + Z.of_nat (tokens_out sys) = 1.
Proof.
  assert (Hcfg : 0 <= MaxConnPerHost (new_Dialer 1) <= max_int).
  { unfold max_int, int_bits. simpl. lia. }
  assert (Hreach : rtc (step 0) (start (mkPool 1))
            (mkSystem (mkPool 0)
               [DialDone (pool_Conn (mkConn (Some (conn_n 0)) 0)) None]
               [mkConn (Some (conn_n 0)) 0])).
  { eapply rtc_l; [exact (step_call_Dial 0 (start (mkPool 1)))|].
    eapply rtc_l; [apply (step_getToken 0 _ 0); reflexivity|].
    eapply rtc_l;
      [apply (step_dial_ok 0 _ 0 (Some (conn_n 0))); reflexivity|].
    apply rtc_refl. }
  exact (tokens_within_cap example_net example_addr (new_Dialer 1)
           (snd (Dialer_pool example_net example_addr (new_Dialer 1)))
           0%nat (mkPool 1) _ eq_refl Hcfg eq_refl eq_refl Hreach).
Defined.

(** The steps are those of the code: what one call of [maybeDial] does to
    the pool is what a goroutine does to it by running from [DialGetToken]
    on its own. *)
Lemma maybeDial_is_a_run self network addr d p tr h :
  ∃ g h',
    rtc (step self) (mkSystem p [DialGetToken] h)
      (mkSystem (snd (fst (maybeDial self network addr d p tr))) [g] h').
Proof.
  unfold maybeDial.
  destruct (getToken p) as [t p1] eqn:Hget.
  assert (Hstep : step self (mkSystem p [DialGetToken] h)
            (mkSystem p1 [if negb (t =? 0) then DialRaw else DialSelect] h)).
  { pose proof (step_getToken self (mkSystem p [DialGetToken] h) 0 eq_refl)
      as Hs. cbn [the_pool running held] in Hs. by rewrite Hget in Hs. }
  destruct (negb (t =? 0)).
  - destruct (d (dialed tr) network addr) as [c [e|]].
    + destruct (putToken p1) as [t2 p2] eqn:Hput. cbn [fst snd].
      exists (DialDone nil_Conn (Some e)), h.
      eapply rtc_l; [exact Hstep|].
      eapply rtc_l;
        [exact (step_dial_failed self (mkSystem p1 [DialRaw] h) 0 e eq_refl)|].
      pose proof (step_dial_putToken self
                    (mkSystem p1 [DialPutToken e] h) 0 e eq_refl) as Hs.
      cbn [the_pool running held] in Hs. rewrite Hput in Hs.
      by apply rtc_once.
    + cbn [fst snd].
      exists (DialDone (pool_Conn (mkConn c self)) None), (mkConn c self :: h).
      eapply rtc_l; [exact Hstep|].
      apply rtc_once.
      exact (step_dial_ok self (mkSystem p1 [DialRaw] h) 0 c eq_refl).
  - cbn [fst snd]. exists DialSelect, h. by apply rtc_once.
Qed.

(** Likewise for the [default] case of [Close]: select, [putToken], raw
    close. *)
Lemma Close_is_a_run self c p h err :
  rtc (step self) (mkSystem p [CloseSelect c] h)
    (mkSystem (snd (putToken p)) [CloseDone err] h).
Proof.
  eapply rtc_l;
    [exact (step_close_default self (mkSystem p [CloseSelect c] h) 0 c eq_refl)|].
  eapply rtc_l;
    [exact (step_close_putToken self (mkSystem p [ClosePutToken c] h) 0 c
              eq_refl)|].
  apply rtc_once.
  exact (step_close_raw self (mkSystem (snd (putToken p)) [CloseRaw c] h) 0 c
           err eq_refl).
Qed.

(* ===================================================================== *)
(** * Further properties of the code *)

(** ** The token bucket *)

(** X1: taking a token and giving it back restores the pool, and so does
    giving one and taking it; taking never brings the count below zero. *)
Theorem getToken_putToken_round_trip (p : pool) :
  is_int (tokens p) →
  (0 < tokens p →
   snd (putToken (snd (getToken p))) = p ∧
   0 <= tokens (snd (getToken p))) ∧
  (0 <= tokens p → tokens p < max_int →
   snd (getToken (snd (putToken p))) = p ∧
   fst (getToken (snd (putToken p))) = tokens p + 1) ∧
  (tokens p <= 0 → snd (getToken p) = p).
Proof.
  intros Hi. repeat split.
  - rewrite getToken_positive by done. cbn [snd].
    rewrite putToken_in_range; cbn [tokens snd].
    + replace (tokens p - 1 + 1) with (tokens p) by lia. apply pool_eta.
    + rewrite is_int_bounds in *. lia.
    + rewrite is_int_bounds in Hi. unfold max_int, int_bits. lia.
  - rewrite getToken_positive by done. cbn [snd tokens]. lia.
  - rewrite putToken_in_range by done. cbn [snd].
    rewrite getToken_positive; cbn [tokens snd].
    + replace (tokens p + 1 - 1) with (tokens p) by lia. apply pool_eta.
    + rewrite is_int_bounds in *. unfold max_int, int_bits in *. lia.
    + lia.
  - rewrite putToken_in_range by done. reflexivity.
  - intros Hle. by rewrite getToken_not_positive.
Qed.

Lemma getToken_putToken_round_trip_three :
  (0 < tokens (mkPool 3) →
   snd (putToken (snd (getToken (mkPool 3)))) = mkPool 3 ∧
   0 <= tokens (snd (getToken (mkPool 3)))) ∧
  (0 <= tokens (mkPool 3) → tokens (mkPool 3) < max_int →
   snd (getToken (snd (putToken (mkPool 3)))) = mkPool 3 ∧
   fst (getToken (snd (putToken (mkPool 3)))) = tokens (mkPool 3) + 1) ∧
  (tokens (mkPool 3) <= 0 → snd (getToken (mkPool 3)) = mkPool 3).
Proof.
  apply (getToken_putToken_round_trip (mkPool 3)). in_range.
Defined.

(** ** What [maybeDial] can do *)

Lemma maybeDial_cases self network addr d p tr :
  (tokens p = 0 ∧
   maybeDial self network addr d p tr = ((nil_Conn, None), p, tr)) ∨
  (tokens p ≠ 0 ∧ ∃ c,
     d (dialed tr) network addr = (c, None) ∧
     maybeDial self network addr d p tr =
       ((pool_Conn (mkConn c self), None), snd (getToken p),
        logged network addr tr)) ∨
  (tokens p ≠ 0 ∧ ∃ c e,
     d (dialed tr) network addr = (c, Some e) ∧
     maybeDial self network addr d p tr =
       ((of_raw c, Some e), snd (putToken (snd (getToken p))),
        logged network addr tr)).
Proof.
  destruct (decide (tokens p = 0)) as [H0|Hne].
  - left. split; [done|]. by apply maybeDial_zero.
  - right. unfold maybeDial.
    destruct (getToken p) as [t p1] eqn:Hget.
    assert (t = tokens p) as -> by (by rewrite <- getToken_fst, Hget).
    destruct (Z.eqb_spec (tokens p) 0); [done|]. cbn [negb snd].
    destruct (d (dialed tr) network addr) as [c [e|]].
    + right. split; [done|]. destruct (putToken p1) as [t2 p2]. by eexists _, _.
    + left. split; [done|]. by eexists.
Qed.

(** One round of the wait loop at a poll, which is also what [Dial] does
    first: nothing happens at a count of zero; otherwise the dial function
    is called once and its answer ends the call. *)
Lemma wait_loop_poll self network addr d evs s :
  (heap s !! self = None ∧
   wait_loop self network addr d (poll :: evs) s = (s, fault)) ∨
  (∃ pl, heap s !! self = Some pl ∧ tokens pl = 0 ∧
     wait_loop self network addr d (poll :: evs) s =
       wait_loop self network addr d evs s) ∨
  (∃ pl c, heap s !! self = Some pl ∧ tokens pl ≠ 0 ∧
     d (dialed (trans s)) network addr = (c, None) ∧
     wait_loop self network addr d (poll :: evs) s =
       (store self (snd (getToken pl)) (logged network addr (trans s)) s,
        returned (pool_Conn (mkConn c self)) None)) ∨
  (∃ pl c e, heap s !! self = Some pl ∧ tokens pl ≠ 0 ∧
     d (dialed (trans s)) network addr = (c, Some e) ∧
     wait_loop self network addr d (poll :: evs) s =
       (store self (snd (putToken (snd (getToken pl))))
          (logged network addr (trans s)) s,
        returned nil_Conn (Some e))).
Proof.
  cbn [wait_loop]. destruct (heap s !! self) as [pl|] eqn:Hh.
  - right.
    destruct (maybeDial_cases self network addr d pl (trans s))
      as [[H0 Hm]|[[Hne (c & Hd & Hm)]|[Hne (c & e & Hd & Hm)]]];
      rewrite (at_pool_run _ _ _ _ _ _ _ Hh Hm).
    + left. exists pl. do 2 (split; [done|]).
      by rewrite (store_same _ _ _ Hh).
    + right. left. by exists pl, c.
    + right. right. by exists pl, c, e.
  - left. split; [done|]. unfold at_pool. by rewrite Hh.
Qed.

(** The first attempt of [Dial] is a poll of the wait loop on the pool that
    [pool] returned. *)
Lemma Dial_as_poll d network addr evs s :
  Dial d network addr evs s =
    wait_loop (fst (Dialer_pool network addr s)) network addr d (poll :: evs)
      (snd (Dialer_pool network addr s)).
Proof. unfold Dial. by destruct (Dialer_pool network addr s). Qed.

(** ** What [Dial] returns and what it calls *)

Lemma wait_loop_conn_or_error self network addr d evs s :
  conn_or_error (snd (wait_loop self network addr d evs s)).
Proof.
  revert s. induction evs as [|[c| |] evs IH]; intros s.
  - done.
  - left. by exists c.
  - destruct (wait_loop_poll self network addr d evs s)
      as [[_ ->]|[(pl & _ & _ & ->)|[(pl & c & _ & _ & _ & ->)
         |(pl & c & e & _ & _ & _ & ->)]]].
    + done.
    + apply IH.
    + left. by eexists.
    + right. split; [done|]. by exists e.
  - right. split; [done|]. by eexists.
Qed.

(** X2: whenever [Dial] returns, it returns either a wrapped connection and
    no error, or no connection and an error: never both, never neither, and
    never a raw connection of the transport. *)
Theorem Dial_returns_conn_or_error
    (d : DialFunc) (network addr : string) (evs : list select_event)
    (s : State) :
  conn_or_error (snd (Dial d network addr evs s)).
Proof. rewrite Dial_as_poll. apply wait_loop_conn_or_error. Qed.

Lemma wait_loop_dials_at_most_once self network addr d evs s :
  trans (fst (wait_loop self network addr d evs s)) = trans s ∨
  (trans (fst (wait_loop self network addr d evs s)) =
     logged network addr (trans s) ∧
   ∃ c err, snd (wait_loop self network addr d evs s) = returned c err).
Proof.
  revert s. induction evs as [|[c| |] evs IH]; intros s; try by left.
  destruct (wait_loop_poll self network addr d evs s)
    as [[_ ->]|[(pl & _ & _ & ->)|[(pl & c & _ & _ & _ & ->)
       |(pl & c & e & _ & _ & _ & ->)]]].
  - by left.
  - apply IH.
  - right. split; [done|]. by eexists _, _.
  - right. split; [done|]. by eexists _, _.
Qed.

(** X3: one call of [Dial] calls the underlying dial function at most once,
    and then for its own network and address; if it called it, [Dial] has
    returned (the answer of the dial function ends the call, there is no
    second try); and [Dial] never closes a raw connection. *)
Theorem Dial_dials_at_most_once
    (d : DialFunc) (network addr : string) (evs : list select_event)
    (s : State) :
  closed (trans (fst (Dial d network addr evs s))) = closed (trans s) ∧
  (dialed (trans (fst (Dial d network addr evs s))) = dialed (trans s) ∨
   (dialed (trans (fst (Dial d network addr evs s))) =
      dialed (trans s) ++ [(network, addr)] ∧
    ∃ c err, snd (Dial d network addr evs s) = returned c err)).
Proof.
  rewrite Dial_as_poll.
  destruct (wait_loop_dials_at_most_once
              (fst (Dialer_pool network addr s)) network addr d (poll :: evs)
              (snd (Dialer_pool network addr s))) as [Hsame|[Hlog Hret]];
    rewrite Dialer_pool_trans in *.
  - rewrite Hsame. split; [done|]. by left.
  - rewrite Hlog. split; [done|]. right. by split.
Qed.

(** ** [Dial] at an exhausted pool *)

Lemma wait_loop_exhausted self network addr d evs s pl :
  heap s !! self = Some pl → tokens pl = 0 →
  fst (wait_loop self network addr d evs s) = s ∧
  (snd (wait_loop self network addr d evs s) = blocked ∨
   (∃ c, recv c ∈ evs ∧
      snd (wait_loop self network addr d evs s) =
        returned (pool_Conn c) None) ∨
   (deadline ∈ evs ∧
      snd (wait_loop self network addr d evs s) =
        returned nil_Conn (Some (timeout_error ErrTimeout_lit)))).
Proof.
  intros Hh H0. induction evs as [|[c| |] evs IH].
  - split; [done|]. by left.
  - split; [done|]. right. left. exists c. split; [|done]. apply list_elem_of_here.
  - destruct (wait_loop_poll self network addr d evs s)
      as [[Hn _]|[(pl' & _ & _ & ->)|[(pl' & c & Hh' & Hne & _)
         |(pl' & c & e & Hh' & Hne & _)]]]; [congruence| |congruence..].
    destruct IH as [Hst [Hb|[(c & Hin & Hr)|[Hin Hr]]]]; split; try done.
    + by left.
    + right. left. exists c. split; [|done]. by apply list_elem_of_further.
    + right. right. split; [|done]. by apply list_elem_of_further.
  - split; [done|]. right. right. split; [|done]. apply list_elem_of_here.
Qed.

(** X4: while the count of the destination's pool is zero, a call of [Dial]
    never calls the dial function and leaves the state as [pool] left it,
    whatever events it meets; it can only end with a connection that was
    handed over on the channel or with the timeout error after the deadline
    fired, and with polls alone it does not return. *)
Theorem Dial_exhausted
    (d : DialFunc) (network addr : string) (s s1 : State) (p : nat)
    (pl : pool) (evs : list select_event) (k : nat) :
  Dialer_pool network addr s = (p, s1) →
  heap s1 !! p = Some pl →
  tokens pl = 0 →
  fst (Dial d network addr evs s) = s1 ∧
  (snd (Dial d network addr evs s) = blocked ∨
   (∃ c, recv c ∈ evs ∧
      snd (Dial d network addr evs s) = returned (pool_Conn c) None) ∨
   (deadline ∈ evs ∧
      snd (Dial d network addr evs s) =
        returned nil_Conn (Some (timeout_error ErrTimeout_lit)))) ∧
  Dial d network addr (repeat poll k) s = (s1, blocked).
Proof.
  intros Hpool Hh H0. rewrite !Dial_as_poll, Hpool. cbn [fst snd].
  rewrite !(wait_loop_polls_empty p network addr d 1 _ s1 pl Hh H0
            : wait_loop _ _ _ _ (poll :: _) _ = _).
  destruct (wait_loop_exhausted p network addr d evs s1 pl Hh H0) as [H1 H2].
  split; [done|]. split; [done|].
  rewrite <- (app_nil_r (repeat poll k)).
  by rewrite (wait_loop_polls_empty _ _ _ _ _ _ _ pl).
Qed.

Lemma Dial_exhausted_one_busy :
  let c := mkConn (Some (conn_n 0)) 0 in
  let evs := [poll; recv c; deadline] in
  fst (Dial dial_ok example_net example_addr evs one_busy) = one_busy ∧
  (snd (Dial dial_ok example_net example_addr evs one_busy) = blocked ∨
   (∃ c', recv c' ∈ evs ∧
      snd (Dial dial_ok example_net example_addr evs one_busy) =
        returned (pool_Conn c') None) ∨
   (deadline ∈ evs ∧
      snd (Dial dial_ok example_net example_addr evs one_busy) =
        returned nil_Conn (Some (timeout_error ErrTimeout_lit)))) ∧
  Dial dial_ok example_net example_addr (repeat poll 3) one_busy =
    (one_busy, blocked).
Proof.
  exact (Dial_exhausted dial_ok example_net example_addr one_busy one_busy
           0%nat (mkPool 0) _ 3 eq_refl eq_refl eq_refl).
Defined.

(** X5: a [Dial] that waits at an exhausted pool and, after [k] polls,
    receives a connection on the channel returns exactly that connection:
    the dial function is not called and the state, the count included, is
    left as it was. *)
Theorem Dial_reuses_handed_connection
    (d : DialFunc) (network addr : string) (s s1 : State) (p : nat)
    (pl : pool) (c : conn) (k : nat) (evs : list select_event) :
  Dialer_pool network addr s = (p, s1) →
  heap s1 !! p = Some pl →
  tokens pl = 0 →
  Dial d network addr (repeat poll k ++ recv c :: evs) s =
    (s1, returned (pool_Conn c) None).
Proof.
  intros Hpool Hh H0. rewrite Dial_as_poll, Hpool. cbn [fst snd].
  by rewrite (wait_loop_polls_empty p network addr d (S k) _ s1 pl Hh H0
              : wait_loop _ _ _ _ (poll :: _) _ = _).
Qed.

Lemma Dial_reuses_handed_connection_one_busy :
  Dial dial_ok example_net example_addr
    (repeat poll 2 ++ recv (mkConn (Some (conn_n 0)) 0) :: []) one_busy =
    (one_busy, returned (pool_Conn (mkConn (Some (conn_n 0)) 0)) None).
Proof.
  exact (Dial_reuses_handed_connection dial_ok example_net example_addr
           one_busy one_busy 0%nat (mkPool 0) (mkConn (Some (conn_n 0)) 0)
           2 [] eq_refl eq_refl eq_refl).
Defined.

(** ** The registry and the store stay in step *)

Local Open Scope nat_scope.

Lemma well_formed_ext s s' :
  registry s' = registry s → length (heap s') = length (heap s) →
  well_formed s → well_formed s'.
Proof. unfold well_formed. intros -> ->. done. Qed.

Lemma well_formed_new max : well_formed (new_Dialer max).
Proof.
  unfold well_formed, new_Dialer, registry. cbn [conns heap].
  split; [|split]; [|by intros k1 k2 p Hk; rewrite lookup_empty in Hk|done].
  intros k p Hk. by rewrite lookup_empty in Hk.
Qed.

Lemma Dialer_pool_registers network addr s :
  registry (snd (Dialer_pool network addr s)) !! (network, addr) =
    Some (fst (Dialer_pool network addr s)).
Proof.
  destruct (registry s !! (network, addr)) as [q|] eqn:Hq.
  - by rewrite (Dialer_pool_registered_id _ _ _ _ Hq).
  - rewrite (Dialer_pool_fresh _ _ _ Hq). cbn [fst snd registry conns].
    apply lookup_insert_eq.
Qed.

Lemma Dialer_pool_well_formed network addr s :
  well_formed s → well_formed (snd (Dialer_pool network addr s)).
Proof.
  intros (Hin & Hinj & Hsize).
  destruct (registry s !! (network, addr)) as [q|] eqn:Hq.
  - by rewrite (Dialer_pool_registered_id _ _ _ _ Hq).
  - rewrite (Dialer_pool_fresh _ _ _ Hq).
    unfold well_formed. cbn [snd registry conns heap].
    rewrite length_app. cbn [length]. split; [|split].
    + intros k p [[_ <-]|[_ Hk]]%lookup_insert_Some; [lia|].
      specialize (Hin _ _ Hk). lia.
    + intros k1 k2 p [[<- <-]|[Hne1 Hk1]]%lookup_insert_Some
                     [[<- Hp]|[Hne2 Hk2]]%lookup_insert_Some; try done.
      * specialize (Hin _ _ Hk2). lia.
      * specialize (Hin _ _ Hk1). lia.
      * by eapply Hinj.
    + rewrite map_size_insert_None by done. lia.
Qed.

Lemma wait_loop_heap_length self network addr d evs s :
  length (heap (fst (wait_loop self network addr d evs s))) =
    length (heap s).
Proof.
  revert s. induction evs as [|[c| |] evs IH]; intros s; try done.
  destruct (wait_loop_poll self network addr d evs s)
    as [[_ ->]|[(pl & _ & _ & ->)|[(pl & c & _ & _ & _ & ->)
       |(pl & c & e & _ & _ & _ & ->)]]]; [done|apply IH|..];
    cbn [fst store heap]; apply length_insert.
Qed.

Lemma wait_loop_heap_frame self network addr d evs s q :
  q ≠ self →
  heap (fst (wait_loop self network addr d evs s)) !! q = heap s !! q.
Proof.
  intros Hq. revert s. induction evs as [|[c| |] evs IH]; intros s; try done.
  destruct (wait_loop_poll self network addr d evs s)
    as [[_ ->]|[(pl & _ & _ & ->)|[(pl & c & _ & _ & _ & ->)
       |(pl & c & e & _ & _ & _ & ->)]]]; [done|apply IH|..];
    cbn [fst]; by apply store_lookup_ne.
Qed.

Lemma wait_loop_no_fault self network addr d evs s :
  is_Some (heap s !! self) →
  snd (wait_loop self network addr d evs s) ≠ fault.
Proof.
  intros [pl Hh]. induction evs as [|[c| |] evs IH]; try done.
  destruct (wait_loop_poll self network addr d evs s)
    as [[Hn _]|[(pl' & _ & _ & ->)|[(pl' & c & _ & _ & _ & ->)
       |(pl' & c & e & _ & _ & _ & ->)]]]; [congruence|done..].
Qed.

Lemma Dial_well_formed d network addr evs s :
  well_formed s → well_formed (fst (Dial d network addr evs s)).
Proof.
  intros Hwf. rewrite Dial_as_poll.
  eapply well_formed_ext;
    [apply wait_loop_registry|apply wait_loop_heap_length|].
  by apply Dialer_pool_well_formed.
Qed.

Lemma Close_heap_length c ready s :
  length (heap (after (Close c ready s))) = length (heap s).
Proof.
  unfold Close. destruct ready; [done|]. unfold at_pool.
  destruct (heap s !! conn_pool c) as [pl|]; [|done].
  destruct (putToken pl) as [t pl'].
  destruct (Conn c); cbn [after heap store]; apply length_insert.
Qed.

Lemma run_calls_well_formed d calls s :
  well_formed s → well_formed (run_calls d calls s).
Proof.
  revert s. induction calls as [|a calls IH]; intros s Hwf; [done|].
  apply IH. destruct a as [network addr evs|c ready]; cbn [run_call].
  - by apply Dial_well_formed.
  - eapply well_formed_ext; [apply Close_registry|apply Close_heap_length|done].
Qed.

Lemma Dial_no_fault d network addr evs s :
  well_formed s → snd (Dial d network addr evs s) ≠ fault.
Proof.
  intros Hwf. rewrite Dial_as_poll. apply wait_loop_no_fault.
  apply lookup_lt_is_Some.
  apply (Dialer_pool_well_formed network addr) in Hwf as (Hin & _ & _).
  eapply Hin, Dialer_pool_registers.
Qed.

(** X6: in every state that a freshly declared [Dialer] reaches through any
    sequence of [Dial] and [Close] calls, each registered destination points
    to an allocated pool, no two destinations share a pool, and there are as
    many pools as registered destinations; so the pointer that [Dial] takes
    from the registry is never dangling. *)
Theorem registry_matches_store
    (max : Z) (d : DialFunc) (calls : list api_call) :
  well_formed (run_calls d calls (new_Dialer max)) ∧
  ∀ network addr evs,
    snd (Dial d network addr evs (run_calls d calls (new_Dialer max))) ≠ fault.
Proof.
  assert (Hwf : well_formed (run_calls d calls (new_Dialer max))).
  { apply run_calls_well_formed, well_formed_new. }
  split; [done|]. intros. by apply Dial_no_fault.
Qed.

(** X7: a [Dial] to one destination leaves every other registered
    destination alone: its registration and its pool, count included, are
    what they were. *)
Theorem Dial_leaves_other_destinations
    (d : DialFunc) (network addr : string) (evs : list select_event)
    (s : State) (k : string * string) (q : nat) :
  well_formed s →
  registry s !! k = Some q →
  k ≠ (network, addr) →
  registry (fst (Dial d network addr evs s)) !! k = Some q ∧
  heap (fst (Dial d network addr evs s)) !! q = heap s !! q.
Proof.
  intros (Hin & Hinj & _) Hk Hne. split; [by apply Dial_keeps_registered|].
  rewrite Dial_as_poll. specialize (Hin _ _ Hk).
  destruct (registry s !! (network, addr)) as [p|] eqn:Hp.
  - rewrite (Dialer_pool_registered_id _ _ _ _ Hp). cbn [fst snd].
    apply wait_loop_heap_frame. intros ->. apply Hne. by eapply Hinj.
  - rewrite (Dialer_pool_fresh _ _ _ Hp). cbn [fst snd].
    rewrite wait_loop_heap_frame by lia. cbn [heap].
    by rewrite lookup_app_l.
Qed.

Local Open Scope Z_scope.

Lemma Dial_leaves_other_destinations_two :
  registry (fst (Dial dial_ok example_net other_addr [] one_open_of_two))
    !! (example_net, example_addr) = Some 0%nat ∧
  heap (fst (Dial dial_ok example_net other_addr [] one_open_of_two))
    !! 0%nat = heap one_open_of_two !! 0%nat.
Proof.
  apply (Dial_leaves_other_destinations dial_ok example_net other_addr []
           one_open_of_two (example_net, example_addr) 0%nat).
  - apply run_calls_well_formed, well_formed_new.
  - reflexivity.
  - discriminate.
Defined.

(** X8: the frame of [pool]: the key it was called with is registered at
    the pointer it returns; it touches neither the transport nor the
    configuration; every destination that was registered stays registered at
    the same pointer and every pool that existed is left as it was; and it
    keeps registry and store in step, so that the returned pointer has a
    pool behind it. *)
Theorem Dialer_pool_frame (network addr : string) (s : State) :
  registry (snd (Dialer_pool network addr s)) !! (network, addr) =
    Some (fst (Dialer_pool network addr s)) ∧
  trans (snd (Dialer_pool network addr s)) = trans s ∧
  MaxConnPerHost (snd (Dialer_pool network addr s)) = MaxConnPerHost s ∧
  (∀ k q, registry s !! k = Some q →
          registry (snd (Dialer_pool network addr s)) !! k = Some q) ∧
  (∀ q pl, heap s !! q = Some pl →
           heap (snd (Dialer_pool network addr s)) !! q = Some pl) ∧
  (well_formed s →
   well_formed (snd (Dialer_pool network addr s)) ∧
   is_Some (heap (snd (Dialer_pool network addr s))
              !! fst (Dialer_pool network addr s))).
Proof.
  split; [apply Dialer_pool_registers|].
  split; [apply Dialer_pool_trans|].
  split; [apply Dialer_pool_MaxConnPerHost|].
  split; [intros k q; apply Dialer_pool_keeps_registered|].
  split; [intros q pl; apply Dialer_pool_keeps_pool|].
  intros Hwf. apply (Dialer_pool_well_formed network addr) in Hwf as Hwf1.
  split; [done|]. apply lookup_lt_is_Some.
  destruct Hwf1 as (Hin & _ & _). eapply Hin, Dialer_pool_registers.
Qed.

(** ** The first [Dial] to a destination *)

Lemma max_of_nonzero s : max_of s ≠ 0.
Proof.
  unfold max_of, DefaultMaxConnsPerHost.
  by destruct (Z.eqb_spec (MaxConnPerHost s) 0).
Qed.

(** X9: the first [Dial] to a destination that has no pool yet always calls
    the dial function, exactly once, whatever [MaxConnPerHost] is (a count of
    zero cannot be configured: 0 stands for the default), and returns its
    answer without waiting: the new connection, wrapped and attached to the
    new pool, or the error. *)
Theorem first_Dial_always_dials
    (d : DialFunc) (network addr : string) (evs : list select_event)
    (s : State) :
  registry s !! (network, addr) = None →
  dialed (trans (fst (Dial d network addr evs s))) =
    dialed (trans s) ++ [(network, addr)] ∧
  snd (Dial d network addr evs s) =
    match d (dialed (trans s)) network addr with
    | (c, None) => returned (pool_Conn (mkConn c (length (heap s)))) None
    | (_, Some e) => returned nil_Conn (Some e)
    end.
Proof.
  intros Hnew. rewrite Dial_as_poll, (Dialer_pool_fresh _ _ _ Hnew).
  cbn [fst snd].
  set (s1 := mkState _ _ _ _).
  assert (Hh : heap s1 !! length (heap s) = Some (mkPool (max_of s))).
  { unfold s1. cbn [heap]. by rewrite lookup_app_r, Nat.sub_diag. }
  pose proof (max_of_nonzero s) as Hmax.
  destruct (wait_loop_poll (length (heap s)) network addr d evs s1)
    as [[Hn _]|[(pl & Hpl & H0 & _)|[(pl & c & _ & _ & Hd & ->)
       |(pl & c & e & _ & _ & Hd & ->)]]].
  - congruence.
  - rewrite Hh in Hpl. injection Hpl as <-. done.
  - change (trans s1) with (trans s) in *. by rewrite Hd.
  - change (trans s1) with (trans s) in *. by rewrite Hd.
Qed.

Lemma first_Dial_always_dials_negative :
  dialed (trans (fst (Dial dial_refused example_net example_addr [deadline]
                        (new_Dialer (-3))))) =
    [(example_net, example_addr)] ∧
  snd (Dial dial_refused example_net example_addr [deadline]
         (new_Dialer (-3))) =
    returned nil_Conn (Some (transport_error "connection refused")).
Proof.
  exact (first_Dial_always_dials dial_refused example_net example_addr
           [deadline] (new_Dialer (-3)) eq_refl).
Defined.

(** ** [Dial] and [Close] together *)

Lemma Close_default_after c s pl r :
  heap s !! conn_pool c = Some pl → Conn c = Some r →
  Close c false s =
    mkClosing
      (mkState (conns s) (MaxConnPerHost s)
         (<[conn_pool c := snd (putToken pl)]> (heap s))
         (mkTransport (dialed (trans s)) (closed (trans s) ++ [fd r])))
      None (close_returned (raw_Close r (closed (trans s)))).
Proof. intros Hh Hr. by rewrite (Close_default_run _ _ _ Hh), Hr. Qed.

Lemma Dial_positive_ok d network addr s s1 p pl c evs :
  Dialer_pool network addr s = (p, s1) →
  heap s1 !! p = Some pl →
  is_int (tokens pl) → 0 < tokens pl →
  d (dialed (trans s)) network addr = (c, None) →
  Dial d network addr evs s =
    (store p (mkPool (tokens pl - 1)) (logged network addr (trans s)) s1,
     returned (pool_Conn (mkConn c p)) None).
Proof.
  intros Hpool Hh Hi Hpos Hd.
  assert (Htr : trans s1 = trans s).
  { by rewrite <- (Dialer_pool_trans network addr s), Hpool. }
  unfold Dial. rewrite Hpool.
  rewrite (at_pool_run _ _ _ _ _ _ _ Hh
             (maybeDial_positive_ok p network addr d pl (trans s1) c Hi Hpos
                ltac:(by rewrite Htr))).
  by rewrite Htr.
Qed.

(** X10: a [Dial] that gets a new connection, followed by the [Close] of
    that connection with nobody waiting, puts every pool back as it was
    before the two calls: the token taken is the token given back. The
    transport has seen one dial and one close, and [Close] returns what the
    raw connection's [Close] answered. *)
Theorem Dial_then_Close_restores
    (d : DialFunc) (network addr : string) (s s1 : State) (p : nat)
    (pl : pool) (r : rawConn) (evs : list select_event) :
  Dialer_pool network addr s = (p, s1) →
  heap s1 !! p = Some pl →
  is_int (tokens pl) → 0 < tokens pl →
  d (dialed (trans s)) network addr = (Some r, None) →
  snd (Dial d network addr evs s) =
    returned (pool_Conn (mkConn (Some r) p)) None ∧
  heap (after (Close (mkConn (Some r) p) false
                 (fst (Dial d network addr evs s)))) = heap s1 ∧
  trans (after (Close (mkConn (Some r) p) false
                  (fst (Dial d network addr evs s)))) =
    mkTransport (dialed (trans s) ++ [(network, addr)])
                (closed (trans s) ++ [fd r]) ∧
  ended (Close (mkConn (Some r) p) false (fst (Dial d network addr evs s))) =
    close_returned (raw_Close r (closed (trans s))).
Proof.
  intros Hpool Hh Hi Hpos Hd.
  rewrite (Dial_positive_ok _ _ _ _ _ _ _ _ _ Hpool Hh Hi Hpos Hd).
  cbn [fst snd]. split; [done|].
  rewrite (Close_default_after _ _ (mkPool (tokens pl - 1)) r);
    [|exact (store_lookup _ _ _ _ _ Hh)|done].
  cbn [after ended heap trans store conn_pool logged dialed closed].
  rewrite putToken_in_range; cbn [tokens snd].
  - rewrite list_insert_insert_eq.
    replace (tokens pl - 1 + 1) with (tokens pl) by lia.
    by rewrite pool_eta, list_insert_id.
  - rewrite is_int_bounds in *. lia.
  - rewrite is_int_bounds in Hi. unfold max_int, int_bits. lia.
Qed.

Lemma Dial_then_Close_restores_fresh :
  let c := mkConn (Some (conn_n 0)) 0 in
  let s := new_Dialer 1 in
  snd (Dial dial_ok example_net example_addr [] s) =
    returned (pool_Conn c) None ∧
  heap (after (Close c false (fst (Dial dial_ok example_net example_addr [] s))))
    = [mkPool 1] ∧
  trans (after (Close c false
                  (fst (Dial dial_ok example_net example_addr [] s)))) =
    mkTransport [(example_net, example_addr)] [0%nat] ∧
  ended (Close c false (fst (Dial dial_ok example_net example_addr [] s))) =
    close_returned None.
Proof.
  assert (Hi : is_int (tokens (mkPool 1))) by in_range.
  assert (Hpos : 0 < tokens (mkPool 1)) by (simpl; lia).
  exact (Dial_then_Close_restores dial_ok example_net example_addr
           (new_Dialer 1)
           (snd (Dialer_pool example_net example_addr (new_Dialer 1)))
           0%nat (mkPool 1) (conn_n 0) [] eq_refl eq_refl Hi Hpos eq_refl).
Defined.

(** X11: [Close] keeps no record of having run: a second [Close] of the
    same connection, again with nobody waiting, releases a second token and
    calls the raw connection's [Close] a second time. *)
Theorem Close_twice_releases_twice
    (c : conn) (s : State) (pl : pool) (r : rawConn) :
  heap s !! conn_pool c = Some pl →
  Conn c = Some r →
  is_int (tokens pl) → tokens pl + 1 < max_int →
  heap (after (Close c false (after (Close c false s)))) !! conn_pool c =
    Some (mkPool (tokens pl + 2)) ∧
  closed (trans (after (Close c false (after (Close c false s))))) =
    closed (trans s) ++ [fd r; fd r] ∧
  ended (Close c false (after (Close c false s))) =
    close_returned (raw_Close r (closed (trans s) ++ [fd r])).
Proof.
  intros Hh Hr Hi Hlt.
  rewrite (Close_default_after c s pl r Hh Hr). cbn [after].
  rewrite putToken_in_range by (done || lia). cbn [snd].
  assert (Hlen : (conn_pool c < length (heap s))%nat)
    by (by eapply lookup_lt_Some).
  rewrite (Close_default_after c _ (mkPool (tokens pl + 1)) r);
    [|by apply list_lookup_insert_eq|done].
  cbn [after ended heap trans closed dialed].
  rewrite putToken_in_range; cbn [tokens snd].
  - rewrite list_insert_insert_eq, list_lookup_insert_eq by done.
    rewrite <- app_assoc. repeat split. f_equal. f_equal. lia.
  - rewrite is_int_bounds in *. unfold max_int, int_bits in *. lia.
  - lia.
Qed.

Lemma Close_twice_releases_twice_one_busy :
  let c := mkConn (Some (conn_n 0)) 0 in
  heap (after (Close c false (after (Close c false one_busy)))) !! 0%nat =
    Some (mkPool 2) ∧
  closed (trans (after (Close c false (after (Close c false one_busy))))) =
    [0%nat; 0%nat] ∧
  ended (Close c false (after (Close c false one_busy))) =
    close_returned None.
Proof.
  assert (Hi : is_int (tokens (mkPool 0))) by in_range.
  assert (Hlt : tokens (mkPool 0) + 1 < max_int) by in_range.
  exact (Close_twice_releases_twice (mkConn (Some (conn_n 0)) 0) one_busy
           (mkPool 0) (conn_n 0) eq_refl eq_refl Hi Hlt).
Defined.

(** X12: a waiter that missed the handoff gets its turn at the next poll:
    after a [Close] with nobody receiving has released the only token of an
    exhausted pool, the next poll of a waiting [Dial] finds it, dials and
    returns the new connection, and the pool is exhausted again. *)
Theorem poll_after_Close_dials
    (d : DialFunc) (network addr : string) (s : State) (c : conn)
    (pl : pool) (r : rawConn) (c' : option rawConn)
    (evs : list select_event) :
  heap s !! conn_pool c = Some pl →
  tokens pl = 0 →
  Conn c = Some r →
  d (dialed (trans s)) network addr = (c', None) →
  snd (wait_loop (conn_pool c) network addr d (poll :: evs)
         (after (Close c false s))) =
    returned (pool_Conn (mkConn c' (conn_pool c))) None ∧
  heap (fst (wait_loop (conn_pool c) network addr d (poll :: evs)
               (after (Close c false s)))) = heap s ∧
  closed (trans (fst (wait_loop (conn_pool c) network addr d (poll :: evs)
                        (after (Close c false s))))) =
    closed (trans s) ++ [fd r].
Proof.
  intros Hh H0 Hr Hd.
  assert (Hi : is_int (tokens pl)) by (rewrite H0; in_range).
  assert (Hlen : (conn_pool c < length (heap s))%nat)
    by (by eapply lookup_lt_Some).
  rewrite (Close_default_after c s pl r Hh Hr). cbn [after].
  rewrite putToken_in_range by (done || rewrite H0; in_range). cbn [snd].
  rewrite H0. cbn [wait_loop].
  set (s1 := mkState _ _ _ _).
  assert (Hh1 : heap s1 !! conn_pool c = Some (mkPool 1)).
  { unfold s1. cbn [heap]. by apply list_lookup_insert_eq. }
  rewrite (at_pool_run _ _ _ _ _ _ _ Hh1
             (maybeDial_positive_ok (conn_pool c) network addr d (mkPool 1)
                (trans s1) c' ltac:(in_range) ltac:(simpl; lia) Hd)).
  cbn [fst snd store heap trans logged closed tokens]. unfold s1. cbn [heap].
  rewrite list_insert_insert_eq.
  repeat split. change (1 - 1) with 0. rewrite <- H0, pool_eta.
  by apply list_insert_id.
Qed.

Lemma poll_after_Close_dials_one_busy :
  let c := mkConn (Some (conn_n 0)) 0 in
  snd (wait_loop 0 example_net example_addr dial_ok [poll]
         (after (Close c false one_busy))) =
    returned (pool_Conn (mkConn (Some (conn_n 1)) 0)) None ∧
  heap (fst (wait_loop 0 example_net example_addr dial_ok [poll]
               (after (Close c false one_busy)))) = [mkPool 0] ∧
  closed (trans (fst (wait_loop 0 example_net example_addr dial_ok [poll]
                        (after (Close c false one_busy))))) = [0%nat].
Proof.
  exact (poll_after_Close_dials dial_ok example_net example_addr one_busy
           (mkConn (Some (conn_n 0)) 0) (mkPool 0) (conn_n 0)
           (Some (conn_n 1)) [] eq_refl eq_refl eq_refl eq_refl).
Defined.

(** X13: when the dial function answers with neither a connection nor an
    error, [Dial] takes a token and returns a wrapped connection around
    nothing; the [Close] of that connection, with nobody waiting, gives the
    token back and then panics on the call of the missing raw connection's
    method, without any raw connection being closed. *)
Theorem Dial_wraps_nil_connection
    (d : DialFunc) (network addr : string) (s s1 : State) (p : nat)
    (pl : pool) (evs : list select_event) :
  Dialer_pool network addr s = (p, s1) →
  heap s1 !! p = Some pl →
  is_int (tokens pl) → 0 < tokens pl →
  d (dialed (trans s)) network addr = (None, None) →
  snd (Dial d network addr evs s) = returned (pool_Conn (mkConn None p)) None ∧
  heap (fst (Dial d network addr evs s)) !! p = Some (mkPool (tokens pl - 1)) ∧
  ended (Close (mkConn None p) false (fst (Dial d network addr evs s))) =
    close_panic ∧
  heap (after (Close (mkConn None p) false
                 (fst (Dial d network addr evs s)))) = heap s1 ∧
  closed (trans (after (Close (mkConn None p) false
                          (fst (Dial d network addr evs s))))) =
    closed (trans s).
Proof.
  intros Hpool Hh Hi Hpos Hd.
  rewrite (Dial_positive_ok _ _ _ _ _ _ _ _ _ Hpool Hh Hi Hpos Hd).
  cbn [fst snd]. split; [done|].
  split; [exact (store_lookup _ _ _ _ _ Hh)|].
  rewrite (Close_default_run _ _ (mkPool (tokens pl - 1)))
    by exact (store_lookup _ _ _ _ _ Hh).
  cbn [Conn conn_pool after ended].
  rewrite putToken_in_range; cbn [tokens snd].
  - unfold store at 1 3 4. cbn [heap trans store logged closed].
    rewrite list_insert_insert_eq.
    replace (tokens pl - 1 + 1) with (tokens pl) by lia.
    by rewrite pool_eta, list_insert_id.
  - rewrite is_int_bounds in *. lia.
  - rewrite is_int_bounds in Hi. unfold max_int, int_bits. lia.
Qed.

Lemma Dial_wraps_nil_connection_fresh :
  let s := new_Dialer 1 in
  let s' := fst (Dial dial_nothing example_net example_addr [] s) in
  snd (Dial dial_nothing example_net example_addr [] s) =
    returned (pool_Conn (mkConn None 0)) None ∧
  heap s' !! 0%nat = Some (mkPool 0) ∧
  ended (Close (mkConn None 0) false s') = close_panic ∧
  heap (after (Close (mkConn None 0) false s')) = [mkPool 1] ∧
  closed (trans (after (Close (mkConn None 0) false s'))) = [].
Proof.
  assert (Hi : is_int (tokens (mkPool 1))) by in_range.
  assert (Hpos : 0 < tokens (mkPool 1)) by (simpl; lia).
  exact (Dial_wraps_nil_connection dial_nothing example_net example_addr
           (new_Dialer 1)
           (snd (Dialer_pool example_net example_addr (new_Dialer 1)))
           0%nat (mkPool 1) [] eq_refl eq_refl Hi Hpos eq_refl).
Defined.

(** ** The cap, call after call *)

Lemma run_calls_cons d a calls s :
  run_calls d (a :: calls) s = run_calls d calls (run_call d a s).
Proof. reflexivity. Qed.

Lemma Dials_drain d network addr p :
  (∀ history, snd (d history network addr) = None) →
  ∀ (j : nat) s pl,
    registry s !! (network, addr) = Some p →
    heap s !! p = Some pl →
    is_int (tokens pl) → Z.of_nat j <= tokens pl →
    registry (run_calls d (repeat (call_Dial network addr []) j) s)
      !! (network, addr) = Some p ∧
    heap (run_calls d (repeat (call_Dial network addr []) j) s) !! p =
      Some (mkPool (tokens pl - Z.of_nat j)) ∧
    dialed (trans (run_calls d (repeat (call_Dial network addr []) j) s)) =
      dialed (trans s) ++ repeat (network, addr) j.
Proof.
  intros Hok. induction j as [|j IH]; intros s pl Hreg Hh Hi Hj.
  - cbn [repeat]. rewrite app_nil_r, Z.sub_0_r, pool_eta. done.
  - cbn [repeat]. rewrite run_calls_cons. cbn [run_call].
    destruct (d (dialed (trans s)) network addr) as [c e] eqn:Hd.
    assert (e = None) as -> by (by rewrite <- (Hok (dialed (trans s))), Hd).
    rewrite (Dial_positive_ok d network addr s s p pl c [])
      by (done || lia || by apply Dialer_pool_registered_id).
    cbn [fst].
    destruct (IH (store p (mkPool (tokens pl - 1))
                    (logged network addr (trans s)) s)
                 (mkPool (tokens pl - 1)))
      as (Hr & Hp & Hlog).
    + done.
    + exact (store_lookup _ _ _ _ _ Hh).
    + cbn [tokens]. rewrite is_int_bounds in *. lia.
    + cbn [tokens]. lia.
    + split; [done|]. split.
      * rewrite Hp. cbn [tokens]. do 2 f_equal. lia.
      * rewrite Hlog. cbn [store trans logged dialed].
        by rewrite <- app_assoc.
Qed.

(** X14: the cap is exact for calls made one after the other. With a dial
    function that always succeeds and a pool whose count is [t], each of the
    next [t] calls of [Dial] returns a connection at once; after them the
    count is zero and the dial function has been called [t] times; and one
    more [Dial] dials nothing: it is blocked until an event arrives and ends
    with the timeout error if that event is the deadline. *)
Theorem cap_is_exact
    (d : DialFunc) (network addr : string) (s : State) (p : nat) (pl : pool) :
  (∀ history, snd (d history network addr) = None) →
  registry s !! (network, addr) = Some p →
  heap s !! p = Some pl →
  is_int (tokens pl) → 0 <= tokens pl →
  let t := Z.to_nat (tokens pl) in
  let full := run_calls d (repeat (call_Dial network addr []) t) s in
  (∀ j : nat, (j < t)%nat →
     ∃ c, snd (Dial d network addr []
                 (run_calls d (repeat (call_Dial network addr []) j) s)) =
            returned (pool_Conn c) None) ∧
  heap full !! p = Some (mkPool 0) ∧
  dialed (trans full) = dialed (trans s) ++ repeat (network, addr) t ∧
  Dial d network addr [] full = (full, blocked) ∧
  Dial d network addr [deadline] full =
    (full, returned nil_Conn (Some (timeout_error ErrTimeout_lit))).
Proof.
  intros Hok Hreg Hh Hi Hnn t full.
  destruct (Dials_drain d network addr p Hok t s pl Hreg Hh Hi)
    as (Hr & Hp & Hlog); [unfold t; lia|].
  replace (tokens pl - Z.of_nat t) with 0 in Hp by (unfold t; lia).
  fold full in Hr, Hp, Hlog.
  assert (Hpool : Dialer_pool network addr full = (p, full))
    by (by apply Dialer_pool_registered_id).
  split; [|split; [done|split; [done|]]].
  - intros j Hj.
    destruct (Dials_drain d network addr p Hok j s pl Hreg Hh Hi)
      as (Hrj & Hpj & _); [unfold t in Hj; lia|].
    set (sj := run_calls d (repeat (call_Dial network addr []) j) s) in *.
    destruct (d (dialed (trans sj)) network addr) as [c e] eqn:Hd.
    assert (e = None) as -> by (by rewrite <- (Hok (dialed (trans sj))), Hd).
    exists (mkConn c p).
    rewrite (Dial_positive_ok d network addr sj sj p _ c [] 
               (Dialer_pool_registered_id _ _ _ _ Hrj) Hpj); [done| |  |done];
      cbn [tokens]; [rewrite is_int_bounds in *|]; unfold t in Hj; lia.
  - rewrite !Dial_as_poll, Hpool. cbn [fst snd wait_loop].
    rewrite !(at_pool_run _ _ _ _ _ _ _ Hp
                (maybeDial_zero p network addr d (mkPool 0) (trans full)
                   eq_refl)).
    by rewrite (store_same _ _ _ Hp).
Qed.

Lemma cap_is_exact_one_left :
  let s := one_open_of_two in
  let full := run_calls dial_ok [call_Dial example_net example_addr []] s in
  (∀ j : nat, (j < 1)%nat →
     ∃ c, snd (Dial dial_ok example_net example_addr []
                 (run_calls dial_ok
                    (repeat (call_Dial example_net example_addr []) j) s)) =
            returned (pool_Conn c) None) ∧
  heap full !! 0%nat = Some (mkPool 0) ∧
  dialed (trans full) =
    dialed (trans s) ++ [(example_net, example_addr)] ∧
  Dial dial_ok example_net example_addr [] full = (full, blocked) ∧
  Dial dial_ok example_net example_addr [deadline] full =
    (full, returned nil_Conn (Some (timeout_error ErrTimeout_lit))).
Proof.
  assert (Hi : is_int (tokens (mkPool 1))) by in_range.
  assert (Hnn : 0 <= tokens (mkPool 1)) by (simpl; lia).
  exact (cap_is_exact dial_ok example_net example_addr one_open_of_two
           0%nat (mkPool 1) (λ _, eq_refl) eq_refl eq_refl Hi Hnn).
Defined.

(** ** Raw connections that are open, under interleaving *)

Lemma lookup_last_app {A : Type} (l : list A) x :
  (l ++ [x]) !! length l = Some x.
Proof. by apply list_lookup_middle. Qed.

Lemma insert_last_app {A : Type} (l : list A) x y :
  <[length l := y]> (l ++ [x]) = l ++ [y].
Proof.
  rewrite insert_app_r_alt by done. by rewrite Nat.sub_diag.
Qed.

(** A goroutine that dials on its own while the count is positive. *)
Lemma run_one_Dial self t gs hs c :
  is_int t → 0 < t →
  rtc (step self) (mkSystem (mkPool t) gs hs)
    (mkSystem (mkPool (t - 1))
       (gs ++ [DialDone (pool_Conn (mkConn c self)) None])
       (mkConn c self :: hs)).
Proof.
  intros Hi Hpos.
  eapply rtc_l; [exact (step_call_Dial self (mkSystem (mkPool t) gs hs))|].
  cbn [the_pool running held].
  eapply rtc_l.
  { apply (step_getToken self _ (length gs)). apply lookup_last_app. }
  cbn [the_pool running held].
  rewrite (getToken_positive (mkPool t)) by done. cbn [fst snd tokens].
  destruct (Z.eqb_spec t 0); [lia|]. cbn [negb]. rewrite insert_last_app.
  apply rtc_once.
  pose proof (step_dial_ok self
                (mkSystem (mkPool (t - 1)) (gs ++ [DialRaw]) hs)
                (length gs) c (lookup_last_app _ _)) as Hs.
  cbn [the_pool running held] in Hs. by rewrite insert_last_app in Hs.
Qed.

Lemma run_many_Dials self (n : nat) t gs hs :
  0 <= t → is_int (t + Z.of_nat n) →
  ∃ gs' hs',
    rtc (step self) (mkSystem (mkPool (t + Z.of_nat n)) gs hs)
      (mkSystem (mkPool t) gs' hs') ∧
    length hs' = (length hs + n)%nat ∧
    sum_list_with not_yet_closed gs' = sum_list_with not_yet_closed gs.
Proof.
  revert gs hs. induction n as [|n IH]; intros gs hs Hnn Hi.
  - exists gs, hs. rewrite Z.add_0_r, Nat.add_0_r. done.
  - destruct (IH (gs ++ [DialDone (pool_Conn (mkConn (Some (conn_n 0)) self)) None])
                 (mkConn (Some (conn_n 0)) self :: hs) Hnn)
      as (gs' & hs' & Hrun & Hlen & Hsum).
    { rewrite is_int_bounds in *. lia. }
    exists gs', hs'. split; [|split].
    + etrans; [|exact Hrun].
      replace (t + Z.of_nat n) with (t + Z.of_nat (S n) - 1) by lia.
      apply run_one_Dial; [done|lia].
    + rewrite Hlen. cbn [length]. lia.
    + rewrite Hsum, sum_list_with_app. simpl. lia.
Qed.

(** X15: the token of a connection is given back before its raw connection
    is closed, so the cap bounds the tokens, not the raw connections: from a
    pool with [max] tokens, [max >= 1], goroutines can reach a state in
    which the count is zero, every token is accounted for, and [max + 1] raw
    connections are open, one of them inside [Close] after its [putToken]. *)
Theorem raw_connections_can_exceed_cap (self : nat) (max : Z) :
  1 <= max <= max_int →
  ∃ sys : system,
    rtc (step self) (start (mkPool max)) sys ∧
    tokens (the_pool sys) = 0 ∧
    Z.of_nat (tokens_out sys) = max ∧
    Z.of_nat (open_conns sys) <= max ∧
    Z.of_nat (physically_open sys) = max + 1.
Proof.
  intros Hmax.
  assert (Hint : is_int (0 + Z.of_nat (Z.to_nat max))).
  { rewrite is_int_bounds. unfold max_int, int_bits in Hmax. lia. }
  destruct (run_many_Dials self (Z.to_nat max) 0 [] [] ltac:(lia) Hint)
    as (gs & hs & Hrun & Hlen & Hsum).
  replace (0 + Z.of_nat (Z.to_nat max)) with max in Hrun by lia.
  destruct hs as [|c rest]; [cbn [length] in Hlen; lia|].
  cbn [length] in Hlen. simpl in Hsum.
  set (c2 := mkConn (Some (conn_n 0)) self).
  set (sys := mkSystem (mkPool 0)
                ((gs ++ [CloseRaw c]) ++ [DialDone (pool_Conn c2) None])
                (c2 :: rest)).
  assert (Hreach : rtc (step self) (start (mkPool max)) sys).
  { etrans; [exact Hrun|].
    eapply rtc_l.
    { exact (step_call_Close self (mkSystem (mkPool 0) gs (c :: rest))
               0 c eq_refl). }
    cbn [the_pool running held delete list_delete].
    eapply rtc_l.
    { apply (step_close_default self _ (length gs) c).
      apply lookup_last_app. }
    cbn [the_pool running held]. rewrite insert_last_app.
    eapply rtc_l.
    { apply (step_close_putToken self _ (length gs) c).
      apply lookup_last_app. }
    cbn [the_pool running held]. rewrite insert_last_app.
    rewrite (putToken_in_range (mkPool 0)) by in_range. cbn [snd tokens].
    change (0 + 1) with 1.
    apply (run_one_Dial self 1 (gs ++ [CloseRaw c]) rest (Some (conn_n 0)));
      [in_range|lia]. }
  destruct (reachable_accounted self max (mkPool max) sys) as [_ Hacc];
    [lia|lia|done|done|].
  pose proof (open_conns_le_tokens_out sys) as Hopen.
  exists sys. split; [done|]. split; [done|].
  change (tokens (the_pool sys)) with 0 in Hacc.
  split; [lia|]. split; [lia|].
  unfold physically_open, sys. cbn [held running length].
  rewrite !sum_list_with_app, Hsum. simpl. lia.
Qed.

Lemma raw_connections_can_exceed_cap_two :
  ∃ sys : system,
    rtc (step 0) (start (mkPool 2)) sys ∧
    tokens (the_pool sys) = 0 ∧
    Z.of_nat (tokens_out sys) = 2 ∧
    Z.of_nat (open_conns sys) <= 2 ∧
    Z.of_nat (physically_open sys) = 2 + 1.
Proof.
  apply (raw_connections_can_exceed_cap 0 2). in_range.
Defined.

(** ** When [maybeDial] dials *)

(** X16: [maybeDial] returns the pair (no connection, no error) exactly when
    the count is zero, and then it has called nothing and changed nothing;
    for every other count, negative ones included, it calls the dial
    function exactly once, for the network and address it was given, and
    returns a wrapped connection or an error. *)
Theorem maybeDial_sentinel_iff_zero
    (self : nat) (network addr : string) (d : DialFunc) (p : pool)
    (tr : transport) :
  (fst (fst (maybeDial self network addr d p tr)) = (nil_Conn, None) ↔
   tokens p = 0) ∧
  (tokens p = 0 →
   maybeDial self network addr d p tr = ((nil_Conn, None), p, tr)) ∧
  (tokens p ≠ 0 →
   snd (maybeDial self network addr d p tr) = logged network addr tr ∧
   ((∃ c, fst (fst (maybeDial self network addr d p tr)) =
            (pool_Conn c, None)) ∨
    (∃ c e, fst (fst (maybeDial self network addr d p tr)) = (c, Some e)))).
Proof.
  destruct (maybeDial_cases self network addr d p tr)
    as [[H0 Hm]|[[Hne (c & Hd & Hm)]|[Hne (c & e & Hd & Hm)]]]; rewrite Hm;
    cbn [fst snd].
  - split; [done|]. split; [done|]. by intros [].
  - split; [by split|]. split; [done|]. intros _. split; [done|].
    left. by eexists.
  - split; [by split|]. split; [done|]. intros _. split; [done|].
    right. by eexists _, _.
Qed.
